(** * Jam Digital ESP32-S3: the clock, alarm and strike core of [sketch.ino]

    A shallow embedding of the sketch's shared state and of the code of its
    tasks ([timeTask], [buzzerTask], [buttonTask], [ledTask], [displayTask])
    and of its interrupt handler ([encoderISR]), followed by the properties
    of the design document that can be settled on that code and by further
    properties read off the code.

    Conventions.
    - A C++ [int] is a 32-bit two's complement integer: it is a [Z] and every
      increment and decrement goes through [wrap_int].  [%] and [/] are C's
      truncating operators ([Z.rem], [Z.quot]).
    - A pin level is a [bool]: [HIGH] is [true], [LOW] is [false].
    - Every block of task code is a program of the monad [Prog]: it
      transforms the shared variables and emits the list of the
      synchronisation and buzzer calls it makes, in order.
    - What a FreeRTOS call returns is an input of the block that makes the
      call: the [bool] argument [lock] of a block is the outcome of its
      [xSemaphoreTake(dataMutex, timeout)]. *)

From Stdlib Require Import ZArith List Bool Lia.
From Stdlib Require String Ascii DecimalString.
Import ListNotations.
Open Scope Z_scope.

(** ** Machine integers *)

Module CInt.

Definition INT_MIN : Z := - 2 ^ 31.
Definition INT_MAX : Z := 2 ^ 31 - 1.

(** Two's complement wrap-around of a 32-bit [int] (and of a [long], which
    has the same width on the ESP32-S3). *)
Definition wrap_int (x : Z) : Z := (x + 2 ^ 31) mod 2 ^ 32 - 2 ^ 31.

(** [TickType_t] is an unsigned 32-bit integer, [uint64_t] a 64-bit one. *)
Definition wrap_u32 (x : Z) : Z := x mod 2 ^ 32.
Definition wrap_u64 (x : Z) : Z := x mod 2 ^ 64.

Definition in_int (x : Z) : Prop := INT_MIN <= x <= INT_MAX.

(** [x++], [x--], [a + b], [a * b], [a % b] and [a / b] on [int]. *)
Definition incr (x : Z) : Z := wrap_int (x + 1).
Definition decr (x : Z) : Z := wrap_int (x - 1).
Definition add (a b : Z) : Z := wrap_int (a + b).
Definition sub (a b : Z) : Z := wrap_int (a - b).
Definition mul (a b : Z) : Z := wrap_int (a * b).
Definition rem (a b : Z) : Z := Z.rem a b.
Definition div (a b : Z) : Z := wrap_int (Z.quot a b).

End CInt.

(** ** Constants of the sketch *)

Definition HIGH : bool := true.
Definition LOW : bool := false.

Definition POT_MIN_THRESHOLD : Z := 50.
Definition BUZZER_FREQ_MIN : Z := 800.
Definition BUZZER_FREQ_MAX : Z := 3000.

(** The alarm time is a pair of constants of the sketch; the task code is
    written against the record so that it can be read at any alarm time. *)
Record AlarmConfig : Type := mkAlarm {
  alarmHour : Z;
  alarmMinute : Z
}.

Definition sketchAlarm : AlarmConfig := mkAlarm 5 30.

(** ** Shared variables *)

Record State : Type := mkState {
  hourNow : Z;
  minuteNow : Z;
  secondNow : Z;
  strikeRemaining : Z;
  alarmRinging : bool;
  lastSecondMicros : Z;
  lastClk : bool;
  (** the binary semaphore [alarmSem]: [true] when a give is pending *)
  alarmSem : bool
}.

Definition set_hourNow (v : Z) (s : State) : State :=
  mkState v (minuteNow s) (secondNow s) (strikeRemaining s) (alarmRinging s)
          (lastSecondMicros s) (lastClk s) (alarmSem s).
Definition set_minuteNow (v : Z) (s : State) : State :=
  mkState (hourNow s) v (secondNow s) (strikeRemaining s) (alarmRinging s)
          (lastSecondMicros s) (lastClk s) (alarmSem s).
Definition set_secondNow (v : Z) (s : State) : State :=
  mkState (hourNow s) (minuteNow s) v (strikeRemaining s) (alarmRinging s)
          (lastSecondMicros s) (lastClk s) (alarmSem s).
Definition set_strikeRemaining (v : Z) (s : State) : State :=
  mkState (hourNow s) (minuteNow s) (secondNow s) v (alarmRinging s)
          (lastSecondMicros s) (lastClk s) (alarmSem s).
Definition set_alarmRinging (v : bool) (s : State) : State :=
  mkState (hourNow s) (minuteNow s) (secondNow s) (strikeRemaining s) v
          (lastSecondMicros s) (lastClk s) (alarmSem s).
Definition set_lastSecondMicros (v : Z) (s : State) : State :=
  mkState (hourNow s) (minuteNow s) (secondNow s) (strikeRemaining s)
          (alarmRinging s) v (lastClk s) (alarmSem s).
Definition set_lastClk (v : bool) (s : State) : State :=
  mkState (hourNow s) (minuteNow s) (secondNow s) (strikeRemaining s)
          (alarmRinging s) (lastSecondMicros s) v (alarmSem s).
Definition set_alarmSem (v : bool) (s : State) : State :=
  mkState (hourNow s) (minuteNow s) (secondNow s) (strikeRemaining s)
          (alarmRinging s) (lastSecondMicros s) (lastClk s) v.

(** The globals as [setup] leaves them: 05:29:50, nothing ringing, nothing to
    strike, the semaphore empty.  [micros] is what [esp_timer_get_time]
    returned and [clk] the level read on the encoder's clock pin. *)
Definition initialState (micros : Z) (clk : bool) : State :=
  mkState 5 29 50 0 false micros clk false.

Definition valid_time (s : State) : Prop :=
  0 <= hourNow s < 24 /\ 0 <= minuteNow s < 60 /\ 0 <= secondNow s < 60.

Definition same_alarm_state (s s' : State) : Prop :=
  alarmRinging s' = alarmRinging s /\ strikeRemaining s' = strikeRemaining s.

(** ** Programs: state passing with a log of the calls made *)

Inductive Event : Type :=
| EnterCritical            (* portENTER_CRITICAL(&mux), also the _ISR form   *)
| ExitCritical             (* portEXIT_CRITICAL(&mux)                        *)
| Take (ok : bool)         (* xSemaphoreTake(dataMutex, t) and its outcome   *)
| Give                     (* xSemaphoreGive(dataMutex)                      *)
| Signal                   (* xSemaphoreGive(alarmSem)                       *)
| Wake                     (* xSemaphoreTake(alarmSem, portMAX_DELAY) passed *)
| ReadHour (h : Z)         (* a read of hourNow outside the tick's own copy  *)
| Tone (freq : Z)          (* tone(PIN_BUZZER, freq)                         *)
| NoTone                   (* noTone(PIN_BUZZER)                             *)
| Delay (ms : Z).          (* vTaskDelay(pdMS_TO_TICKS(ms))                  *)

Definition Prog (A : Type) : Type := State -> A * State * list Event.

Definition ret {A : Type} (a : A) : Prog A := fun s => (a, s, []).

Definition bind {A B : Type} (m : Prog A) (k : A -> Prog B) : Prog B :=
  fun s =>
    let '(a, s1, t1) := m s in
    let '(b, s2, t2) := k a s1 in
    (b, s2, t1 ++ t2).

Declare Scope prog_scope.
Delimit Scope prog_scope with prog.
Notation "x <- m ;; k" := (bind m (fun x => k))
  (at level 61, m at next level, right associativity) : prog_scope.
Notation "m ;; k" := (bind m (fun _ => k))
  (at level 61, right associativity) : prog_scope.
Open Scope prog_scope.

Definition gets {A : Type} (f : State -> A) : Prog A := fun s => (f s, s, []).
Definition modify (f : State -> State) : Prog unit := fun s => (tt, f s, []).
Definition emit (e : Event) : Prog unit := fun s => (tt, s, [e]).
Definition when (b : bool) (m : Prog unit) : Prog unit := if b then m else ret tt.

Definition result {A : Type} (r : A * State * list Event) : A := fst (fst r).
Definition final {A : Type} (r : A * State * list Event) : State := snd (fst r).
Definition calls {A : Type} (r : A * State * list Event) : list Event := snd r.

(** The FreeRTOS and Arduino calls of the sketch. *)
Definition portENTER_CRITICAL : Prog unit := emit EnterCritical.
Definition portEXIT_CRITICAL : Prog unit := emit ExitCritical.
Definition xSemaphoreTake_dataMutex (outcome : bool) : Prog bool :=
  emit (Take outcome) ;; ret outcome.
Definition xSemaphoreGive_dataMutex : Prog unit := emit Give.
Definition xSemaphoreGive_alarmSem : Prog unit :=
  modify (set_alarmSem true) ;; emit Signal.
Definition tone (freq : Z) : Prog unit := emit (Tone freq).
Definition noTone : Prog unit := emit NoTone.
Definition vTaskDelay (ms : Z) : Prog unit := emit (Delay ms).

(** Whether [dataMutex] is held after a run of calls, given whether it was
    held before. *)
Fixpoint mutexHeld (held : bool) (tr : list Event) : bool :=
  match tr with
  | [] => held
  | Take true :: tr' => mutexHeld true tr'
  | Give :: tr' => mutexHeld false tr'
  | _ :: tr' => mutexHeld held tr'
  end.

(** ** [encoderISR] *)

Definition encoderISR (clk dt : bool) : Prog unit :=
  portENTER_CRITICAL ;;
  last <- gets lastClk ;;
  when (negb (Bool.eqb clk last) && Bool.eqb clk HIGH)
    ((if Bool.eqb dt LOW then
        modify (fun s => set_minuteNow (CInt.incr (minuteNow s)) s) ;;
        mn <- gets minuteNow ;;
        when (mn >=? 60)
          (modify (set_minuteNow 0) ;;
           modify (fun s => set_hourNow (CInt.rem (CInt.add (hourNow s) 1) 24) s))
      else
        modify (fun s => set_minuteNow (CInt.decr (minuteNow s)) s) ;;
        mn <- gets minuteNow ;;
        when (mn <? 0)
          (modify (set_minuteNow 59) ;;
           modify (fun s => set_hourNow (CInt.rem (CInt.add (hourNow s) 23) 24) s))) ;;
     modify (set_secondNow 0)) ;;
  modify (set_lastClk clk) ;;
  portEXIT_CRITICAL.

(** ** [timeTask] *)

(** Lines 159-172: the one-second increment under the time lock, and the copy
    of the time that the rest of the tick works on. *)
Definition advanceTime : Prog (Z * Z * Z) :=
  portENTER_CRITICAL ;;
  modify (fun s => set_secondNow (CInt.incr (secondNow s)) s) ;;
  sec <- gets secondNow ;;
  when (sec >=? 60)
    (modify (set_secondNow 0) ;;
     modify (fun s => set_minuteNow (CInt.incr (minuteNow s)) s) ;;
     mn <- gets minuteNow ;;
     when (mn >=? 60)
       (modify (set_minuteNow 0) ;;
        modify (fun s => set_hourNow (CInt.rem (CInt.add (hourNow s) 1) 24) s))) ;;
  h <- gets hourNow ;;
  m <- gets minuteNow ;;
  s <- gets secondNow ;;
  portEXIT_CRITICAL ;;
  ret (h, m, s).

(** Lines 174-183: the alarm check on the copied time. *)
Definition checkAlarm (cfg : AlarmConfig) (lock : bool) (h m s : Z) : Prog unit :=
  when ((h =? alarmHour cfg) && (m =? alarmMinute cfg) && (s =? 0))
    (ok <- xSemaphoreTake_dataMutex lock ;;
     when ok
       (modify (set_alarmRinging true) ;;
        xSemaphoreGive_dataMutex) ;;
     xSemaphoreGive_alarmSem).

(** Lines 185-200: the hourly strike check on the copied minute and second. *)
Definition checkStrike (lock : bool) (m s : Z) : Prog unit :=
  when ((m =? 0) && (s =? 0))
    (ok <- xSemaphoreTake_dataMutex lock ;;
     when ok
       (remaining <- gets strikeRemaining ;;
        ringing <- gets alarmRinging ;;
        when ((remaining =? 0) && negb ringing)
          (portENTER_CRITICAL ;;
           hour <- gets hourNow ;;
           emit (ReadHour hour) ;;
           portEXIT_CRITICAL ;;
           let hh := CInt.rem hour 12 in
           let hh := if hh =? 0 then 12 else hh in
           modify (set_strikeRemaining hh) ;;
           xSemaphoreGive_alarmSem) ;;
        xSemaphoreGive_dataMutex)).

(** The body of the [if] of lines 154-201 without the baseline update: one
    second of clock work. *)
Definition timeTask_tick (cfg : AlarmConfig) (lockAlarm lockStrike : bool)
  : Prog unit :=
  hms <- advanceTime ;;
  let '(h, m, s) := hms in
  checkAlarm cfg lockAlarm h m s ;;
  checkStrike lockStrike m s.

(** One iteration of the task's loop, [nowMicros] being what
    [esp_timer_get_time] returns. *)
Definition timeTask (cfg : AlarmConfig) (nowMicros : Z)
  (lockAlarm lockStrike : bool) : Prog unit :=
  base <- gets lastSecondMicros ;;
  when (CInt.wrap_u64 (nowMicros - base) >=? 1000000)
    (modify (set_lastSecondMicros (CInt.wrap_u64 (base + 1000000))) ;;
     timeTask_tick cfg lockAlarm lockStrike) ;;
  vTaskDelay 10.

(** ** [buttonTask] *)

(** Lines 356-360: the critical section of an accepted stop press. *)
Definition stopPress (lock : bool) : Prog unit :=
  ok <- xSemaphoreTake_dataMutex lock ;;
  when ok
    (modify (set_alarmRinging false) ;;
     modify (set_strikeRemaining 0) ;;
     xSemaphoreGive_dataMutex).

(** One poll of the task's loop.  [pin] is the level of the stop button,
    [now] the tick count, [deb] the value of [pdMS_TO_TICKS(200)] and
    [lastPress] the task's local; the new value of the local is returned. *)
Definition buttonTask (deb : Z) (pin : bool) (now : Z) (lock : bool)
  (lastPress : Z) : Prog Z :=
  lastPress' <-
    (if Bool.eqb pin LOW then
       if CInt.wrap_u32 (now - lastPress) >? deb then
         stopPress lock ;; ret now
       else ret lastPress
     else ret lastPress) ;;
  vTaskDelay 30 ;;
  ret lastPress'.

(** ** [buzzerTask] *)

Module Arduino.

(** Modelled from the spec: the sketch calls the Arduino core's
    [map(x, in_min, in_max, out_min, out_max)], whose body is not part of
    the repository.  The design document describes it as a linear mapping
    of the input range into the frequency band; this is the core's integer
    formula on [long], [(x - in_min) * (out_max - out_min) /
    (in_max - in_min) + out_min], with its guard against an empty input
    range. *)
Definition map (x in_min in_max out_min out_max : Z) : Z :=
  let run := CInt.sub in_max in_min in
  if run =? 0 then -1
  else
    let rise := CInt.sub out_max out_min in
    let delta := CInt.sub x in_min in
    CInt.add (CInt.div (CInt.mul delta rise) run) out_min.

End Arduino.

(** Lines 227-232: the tone of one strike, [potVal] being what
    [analogRead(PIN_POT)] returned. *)
Definition strikeTone (potVal : Z) : Prog unit :=
  if potVal <? POT_MIN_THRESHOLD then noTone
  else tone (Arduino.map potVal 0 4095 BUZZER_FREQ_MIN BUZZER_FREQ_MAX).

(** Lines 259-264: the tone of one ringing cycle. *)
Definition ringTone (potVal : Z) : Prog unit :=
  if potVal <? POT_MIN_THRESHOLD then noTone
  else tone (Arduino.map potVal 0 4095 BUZZER_FREQ_MIN BUZZER_FREQ_MAX).

(** Lines 215-221: the read of the alarm state on wake-up. *)
Definition readAlarmState (lock : bool) : Prog (bool * Z) :=
  ok <- xSemaphoreTake_dataMutex lock ;;
  if ok then
    doAlarm <- gets alarmRinging ;;
    strikes <- gets strikeRemaining ;;
    xSemaphoreGive_dataMutex ;;
    ret (doAlarm, strikes)
  else ret (false, 0).

(** Lines 238-246: the decrement after a strike; the new value of the local
    counter [strikes] is returned. *)
Definition strikeDecrement (lock : bool) (strikes : Z) : Prog Z :=
  ok <- xSemaphoreTake_dataMutex lock ;;
  if ok then
    remaining <- gets strikeRemaining ;;
    when (remaining >? 0) (modify (set_strikeRemaining (CInt.decr remaining))) ;;
    strikes' <- gets strikeRemaining ;;
    xSemaphoreGive_dataMutex ;;
    ret strikes'
  else ret (CInt.decr strikes).

(** Lines 250-254: the read of the ringing flag after the strikes. *)
Definition readRinging (lock : bool) : Prog bool :=
  ok <- xSemaphoreTake_dataMutex lock ;;
  if ok then
    ringing <- gets alarmRinging ;;
    xSemaphoreGive_dataMutex ;;
    ret ringing
  else ret false.

(** Lines 270-275: the re-read at the end of a ringing cycle. *)
Definition rereadRinging (lock : bool) (stillRinging : bool) : Prog bool :=
  ok <- xSemaphoreTake_dataMutex lock ;;
  if ok then
    ringing <- gets alarmRinging ;;
    xSemaphoreGive_dataMutex ;;
    ret ringing
  else
    vTaskDelay 50 ;;
    ret stillRinging.

(** ** The blocks as operations of the whole system *)

(** The code of the other tasks that can run while a task sleeps or between
    two of its blocks.  The arguments are the inputs of the block: lock
    outcomes, pin levels, and for the checks of [timeTask] the copied time. *)
Inductive Op : Type :=
| OpAdvance
| OpCheckAlarm (lock : bool) (h m s : Z)
| OpCheckStrike (lock : bool) (m s : Z)
| OpTick (lockAlarm lockStrike : bool)
| OpEncoder (clk dt : bool)
| OpStrikeDecrement (lock : bool) (strikes : Z)
| OpStopPress (lock : bool).

Definition perform (cfg : AlarmConfig) (op : Op) (s : State) : State :=
  match op with
  | OpAdvance => final (advanceTime s)
  | OpCheckAlarm lock h m sec => final (checkAlarm cfg lock h m sec s)
  | OpCheckStrike lock m sec => final (checkStrike lock m sec s)
  | OpTick lockAlarm lockStrike => final (timeTask_tick cfg lockAlarm lockStrike s)
  | OpEncoder clk dt => final (encoderISR clk dt s)
  | OpStrikeDecrement lock strikes => final (strikeDecrement lock strikes s)
  | OpStopPress lock => final (stopPress lock s)
  end.

Definition performAll (cfg : AlarmConfig) (ops : list Op) (s : State) : State :=
  fold_left (fun st op => perform cfg op st) ops s.

(** What the rest of the system does while the buzzer task sleeps; the calls
    of the other tasks are not part of the buzzer task's log. *)
Definition meanwhile (cfg : AlarmConfig) (ops : list Op) : Prog unit :=
  modify (performAll cfg ops).

(** The inputs of one pass through a playback loop: the potentiometer
    reading, the outcome of the pass's lock acquisition, and what the other
    tasks do during the pass's delays. *)
Record Beat : Type := mkBeat {
  potVal : Z;
  lockOk : bool;
  others : list Op
}.

(** Lines 224-247.  The loop runs on the beats it is given; it returns the
    beats left over when it exits and [None] when the beats run out while
    [strikes] is still positive. *)
Fixpoint strikeLoop (cfg : AlarmConfig) (beats : list Beat) (strikes : Z)
  : Prog (option (list Beat)) :=
  match beats with
  | [] => ret (if strikes >? 0 then None else Some [])
  | b :: rest =>
      if strikes >? 0 then
        strikeTone (potVal b) ;;
        vTaskDelay 300 ;;
        noTone ;;
        vTaskDelay 700 ;;
        meanwhile cfg (others b) ;;
        strikes' <- strikeDecrement (lockOk b) strikes ;;
        strikeLoop cfg rest strikes'
      else ret (Some beats)
  end.

(** Lines 256-276, in the same way. *)
Fixpoint ringLoop (cfg : AlarmConfig) (beats : list Beat) (stillRinging : bool)
  : Prog (option (list Beat)) :=
  match beats with
  | [] => ret (if stillRinging then None else Some [])
  | b :: rest =>
      if stillRinging then
        ringTone (potVal b) ;;
        vTaskDelay 250 ;;
        noTone ;;
        vTaskDelay 200 ;;
        meanwhile cfg (others b) ;;
        stillRinging' <- rereadRinging (lockOk b) stillRinging ;;
        ringLoop cfg rest stillRinging'
      else ret (Some beats)
  end.

(** Lines 249-278: what follows the strikes. *)
Definition ringStage (cfg : AlarmConfig) (lock : bool) (beats : list Beat)
  : Prog bool :=
  stillRinging <- readRinging lock ;;
  left <- ringLoop cfg beats stillRinging ;;
  match left with
  | Some _ => noTone ;; ret true
  | None => ret false
  end.

(** Lines 213-279: one wake-up of the task.  Nothing happens while
    [alarmSem] is empty.  [lockRead] and [lockRing] are the outcomes of the
    acquisitions of lines 217 and 251.  The result is [true] when the task is
    back at line 213 and [false] when the beats ran out during playback. *)
Definition buzzerTask (cfg : AlarmConfig) (lockRead lockRing : bool)
  (beats : list Beat) : Prog bool :=
  pending <- gets alarmSem ;;
  if pending then
    modify (set_alarmSem false) ;;
    emit Wake ;;
    status <- readAlarmState lockRead ;;
    let '(doAlarm, strikes) := status in
    left <- strikeLoop cfg beats strikes ;;
    match left with
    | Some beats' => ringStage cfg lockRing beats'
    | None => ret false
    end
  else ret false.

(** ** The stop handler and a reader, statement by statement *)

(** The critical section of [stopPress] taken apart into its statements and
    run against a reader of the alarm state (lines 309-313 of [displayTask],
    lines 217-221 of [buzzerTask]): [dataMutex] is a component of the state,
    a take succeeds only when it is free, and the scheduler may switch tasks
    between any two statements. *)
Module Interleaving.

Inductive Task : Type := StopHandler | Reader.

Inductive StopPc : Type :=
| Pressed            (* line 356, before the take          *)
| Holding            (* the take succeeded                 *)
| RingingCleared     (* after alarmRinging = false         *)
| StrikesCleared     (* after strikeRemaining = 0          *)
| Released           (* after the give                     *)
| Dropped.           (* the take timed out                 *)

Inductive ReaderPc : Type :=
| Idle
| Locked                       (* the take succeeded            *)
| GotRinging (ringing : bool)  (* after the read of the flag    *)
| GotBoth.                     (* after the read of the strikes *)

Record Sys : Type := mkSys {
  vars : State;
  holder : option Task;
  stop_pc : StopPc;
  reader_pc : ReaderPc;
  (** every pair the reader has read so far, latest first *)
  observed : list (bool * Z)
}.

Inductive step : Sys -> Sys -> Prop :=
| stop_take : forall v r o,
    step (mkSys v None Pressed r o) (mkSys v (Some StopHandler) Holding r o)
| stop_timeout : forall v r o,
    step (mkSys v (Some Reader) Pressed r o) (mkSys v (Some Reader) Dropped r o)
| stop_clear_ringing : forall v h r o,
    step (mkSys v h Holding r o)
         (mkSys (set_alarmRinging false v) h RingingCleared r o)
| stop_clear_strikes : forall v h r o,
    step (mkSys v h RingingCleared r o)
         (mkSys (set_strikeRemaining 0 v) h StrikesCleared r o)
| stop_give : forall v h r o,
    step (mkSys v h StrikesCleared r o) (mkSys v None Released r o)
| reader_take : forall v p o,
    step (mkSys v None p Idle o) (mkSys v (Some Reader) p Locked o)
| reader_ringing : forall v h p o,
    step (mkSys v h p Locked o) (mkSys v h p (GotRinging (alarmRinging v)) o)
| reader_strikes : forall v h p b o,
    step (mkSys v h p (GotRinging b) o)
         (mkSys v h p GotBoth ((b, strikeRemaining v) :: o))
| reader_give : forall v h p o,
    step (mkSys v h p GotBoth o) (mkSys v None p Idle o).

Inductive reaches (a : Sys) : Sys -> Prop :=
| reaches_here : reaches a a
| reaches_step : forall b c, reaches a b -> step b c -> reaches a c.

(** The moment of the press: nobody holds the mutex, the reader is between
    two reads. *)
Definition pressed (v : State) : Sys := mkSys v None Pressed Idle [].

(** What holds in every state that an execution started at a press in
    state [v0] can reach: the variables are where the handler's program
    counter says, whoever is inside a critical section holds the mutex, and
    the reader has only read the state before the press or the cleared
    state. *)
Definition stop_holds (pc : StopPc) : bool :=
  match pc with
  | Holding | RingingCleared | StrikesCleared => true
  | _ => false
  end.

Definition reader_holds (pc : ReaderPc) : bool :=
  match pc with
  | Idle => false
  | _ => true
  end.

Definition vars_at (v0 : State) (pc : StopPc) : State :=
  match pc with
  | Pressed | Holding | Dropped => v0
  | RingingCleared => set_alarmRinging false v0
  | StrikesCleared | Released =>
      set_strikeRemaining 0 (set_alarmRinging false v0)
  end.

Definition alarm_pair (v : State) : bool * Z :=
  (alarmRinging v, strikeRemaining v).

Definition invariant (v0 : State) (y : Sys) : Prop :=
  vars y = vars_at v0 (stop_pc y) /\
  (stop_holds (stop_pc y) = true -> holder y = Some StopHandler) /\
  (reader_holds (reader_pc y) = true -> holder y = Some Reader) /\
  (forall b, reader_pc y = GotRinging b -> b = alarmRinging (vars y)) /\
  Forall (fun o => o = alarm_pair v0 \/ o = (false, 0)) (observed y).

End Interleaving.

(** ** The properties in the words of the design document *)

(** "Strike count is hour mod 12, with 0 mapped to 12." *)
Definition spec_strike_count (hour : Z) : Z :=
  if hour mod 12 =? 0 then 12 else hour mod 12.

(** "minute += 1, wrapping to 0 with hour += 1 (mod 24) at 60", as a step on
    the pair of the hour and the minute. *)
Definition spec_minute_forward (hm : Z * Z) : Z * Z :=
  let '(h, m) := hm in
  if m + 1 =? 60 then ((h + 1) mod 24, 0) else (h, m + 1).

(** "minute -= 1, wrapping to 59 with hour -= 1 (mod 24) at <0". *)
Definition spec_minute_backward (hm : Z * Z) : Z * Z :=
  let '(h, m) := hm in
  if m - 1 <? 0 then ((h - 1) mod 24, 59) else (h, m - 1).

(** The clock after [n] one-second increments. *)
Definition secondTick (s : State) : State := final (advanceTime s).

Fixpoint afterSeconds (n : nat) (s : State) : State :=
  match n with
  | O => s
  | S n' => secondTick (afterSeconds n' s)
  end.

(** The second of the day that a clock shows. *)
Definition secondOfDay (s : State) : Z :=
  hourNow s * 3600 + minuteNow s * 60 + secondNow s.

Definition strikes_in_range (s : State) : Prop :=
  0 <= strikeRemaining s <= 12.

(** The time that a clock shows, and everything else. *)
Definition clock (s : State) : Z * Z * Z :=
  (hourNow s, minuteNow s, secondNow s).

Definition same_rest (s t : State) : Prop :=
  strikeRemaining t = strikeRemaining s /\ alarmRinging t = alarmRinging s /\
  lastSecondMicros t = lastSecondMicros s /\ lastClk t = lastClk s /\
  alarmSem t = alarmSem s.

(** A run of ticks of [timeTask], one pair of lock outcomes per tick. *)
Definition runTicks (cfg : AlarmConfig) (locks : list (bool * bool))
  (s : State) : State :=
  fold_left (fun st l => final (timeTask_tick cfg (fst l) (snd l) st)) locks s.

(** A tick on which a trigger is skipped without a trace: the alarm state
    and the semaphore are as before and no signal was sent. *)
Definition silently_skipped (s : State) (r : unit * State * list Event) : Prop :=
  same_alarm_state s (final r) /\
  alarmSem (final r) = alarmSem s /\
  ~ In Signal (calls r).

(** Every re-read of the hour in a log happens with [dataMutex] free,
    respectively held; the log starts with the mutex free. *)
Definition reread_after_release (tr : list Event) : Prop :=
  forall pre h post, tr = pre ++ ReadHour h :: post -> mutexHeld false pre = false.

Definition reread_under_lock (tr : list Event) : Prop :=
  forall pre h post, tr = pre ++ ReadHour h :: post -> mutexHeld false pre = true.

(** The frequency that both playback loops compute from a reading. *)
Definition buzzerFreq (potVal : Z) : Z :=
  Arduino.map potVal 0 4095 BUZZER_FREQ_MIN BUZZER_FREQ_MAX.

(** A log without a call of [tone]. *)
Definition toneless (tr : list Event) : Prop :=
  forall f, ~ In (Tone f) tr.

(** The invariant of the shared variables: a valid time of day and a strike
    count between 0 and 12. *)
Definition sound (s : State) : Prop := valid_time s /\ strikes_in_range s.

(** ** More of the sketch: the readers of the time *)

(** Lines 73-77: [copyTime]. *)
Definition copyTime : Prog (Z * Z * Z) :=
  portENTER_CRITICAL ;;
  h <- gets hourNow ;;
  m <- gets minuteNow ;;
  s <- gets secondNow ;;
  portEXIT_CRITICAL ;;
  ret (h, m, s).

(** Lines 287-291: one pass of [ledTask]; the result is the level written to
    [PIN_LED]. *)
Definition ledTask : Prog bool :=
  hms <- copyTime ;;
  let '(h, _, _) := hms in
  let isNight := (h >=? 17) || (h <? 6) in
  vTaskDelay 500 ;;
  ret (if isNight then HIGH else LOW).

(** ** Runs of the blocks *)

(** One detent of the encoder: the clock line rises, then falls.  [dtRise]
    and [dtFall] are the levels of the data line at the two interrupts. *)
Definition encoderClick (dtRise dtFall : bool) (s : State) : State :=
  final (encoderISR LOW dtFall (final (encoderISR HIGH dtRise s))).

Fixpoint encoderClicks (n : nat) (dtRise dtFall : bool) (s : State) : State :=
  match n with
  | O => s
  | S n' => encoderClick dtRise dtFall (encoderClicks n' dtRise dtFall s)
  end.

(** The minute of the day that a clock shows. *)
Definition minuteOfDay (s : State) : Z := hourNow s * 60 + minuteNow s.

(** A valid alarm time. *)
Definition valid_alarm (cfg : AlarmConfig) : Prop :=
  0 <= alarmHour cfg < 24 /\ 0 <= alarmMinute cfg < 60.

(** The tick after state [s] is the one on which the alarm check of lines
    175-183 matches. *)
Definition alarmDue (cfg : AlarmConfig) (s : State) : Prop :=
  clock (secondTick s) = (alarmHour cfg, alarmMinute cfg, 0).

(** Iterations of the loop of [timeTask]: each comes with the value that
    [esp_timer_get_time] returns in it and the outcomes of its two lock
    acquisitions. *)
Definition pollLoop (cfg : AlarmConfig) (reads : list (Z * bool * bool))
  (s : State) : State :=
  fold_left
    (fun st r => final (timeTask cfg (fst (fst r)) (snd (fst r)) (snd r) st))
    reads s.

(** The timer never runs backwards: every reading is at least the one
    before it, [lo] being the reading before the first, and fits 64 bits. *)
Fixpoint ascending (lo : Z) (reads : list (Z * bool * bool)) : Prop :=
  match reads with
  | [] => True
  | r :: rest => lo <= fst (fst r) < 2 ^ 64 /\ ascending (fst (fst r)) rest
  end.

Fixpoint lastReading (lo : Z) (reads : list (Z * bool * bool)) : Z :=
  match reads with
  | [] => lo
  | r :: rest => lastReading (fst (fst r)) rest
  end.

(** The calls of one strike and of one ringing cycle, given the tone call. *)
Definition strikeCalls (sound : Event) (lock : bool) : list Event :=
  [sound; Delay 300; NoTone; Delay 700; Take lock] ++
  (if lock then [Give] else []).

Definition toneCall (potVal : Z) : Event :=
  if potVal <? POT_MIN_THRESHOLD then NoTone else Tone (buzzerFreq potVal).

(** Beats during which no other task runs, with a fixed lock outcome. *)
Definition undisturbed (lock : bool) (b : Beat) : Prop :=
  lockOk b = lock /\ others b = [].

(** The calls of one ringing cycle. *)
Definition ringCalls (sound : Event) (lock : bool) : list Event :=
  [sound; Delay 250; NoTone; Delay 200; Take lock] ++
  (if lock then [Give] else [Delay 50]).

(** A beat during which no other task runs. *)
Definition alone (b : Beat) : Prop := others b = [].

(** ** [displayTask] *)

Module Display.

Import Stdlib.Strings.String.
Local Open Scope string_scope.

(** Modelled from the spec: the C library's [snprintf] is not part of the
    repository.  These are the conversions that the sketch's format strings
    use, as the C standard defines them: [%d] prints a decimal number with a
    minus sign when negative, [%02d] pads it with zeros on the left to a
    width of 2, and [snprintf(buf, size, ...)] keeps at most [size - 1]
    characters. *)
Definition fmt_d (n : Z) : string :=
  DecimalString.NilZero.string_of_int (Z.to_int n).

Definition fmt_02d (n : Z) : string :=
  let str := fmt_d n in
  if (String.length str <? 2)%nat then "0" ++ str else str.

Definition snprintf (size : nat) (full : string) : string :=
  substring 0 (size - 1) full.

(** The texts of the four format strings of lines 321, 327, 333 and 337. *)
Definition timeText (h m : Z) : string := fmt_02d h ++ ":" ++ fmt_02d m.

Definition secondsText (s : Z) : string := ":" ++ fmt_02d s.

Definition alarmText (cfg : AlarmConfig) (strikes : Z) : string :=
  "Alarm: " ++ fmt_02d (alarmHour cfg) ++ ":" ++ fmt_02d (alarmMinute cfg) ++
  "  STR:" ++ fmt_d strikes.

Definition onOff (isAlarm : bool) : string := if isAlarm then "ON " else "OFF".

Definition statusText (isAlarm : bool) (potPct : Z) : string :=
  "A:" ++ onOff isAlarm ++ "  POT:" ++ fmt_d potPct ++ "%".

(** The four lines that one pass of the task prints. *)
Record Screen : Type := mkScreen {
  timeLine : string;
  secondsLine : string;
  alarmLine : string;
  statusLine : string
}.

(** Lines 301-341: one pass of [displayTask].  [potVal] is what
    [analogRead(PIN_POT)] returned and [lock] the outcome of the acquisition
    of line 309; the result is what the pass prints. *)
Definition displayTask (cfg : AlarmConfig) (potVal : Z) (lock : bool)
  : Prog Screen :=
  hms <- copyTime ;;
  let '(h, m, s) := hms in
  let potPct := Arduino.map potVal 0 4095 0 100 in
  ok <- xSemaphoreTake_dataMutex lock ;;
  status <-
    (if ok then
       isAlarm <- gets alarmRinging ;;
       strikes <- gets strikeRemaining ;;
       xSemaphoreGive_dataMutex ;;
       ret (isAlarm, strikes)
     else ret (false, 0)) ;;
  let '(isAlarm, strikes) := status in
  let line1 := snprintf 48 (timeText h m) in
  let line2 := snprintf 48 (secondsText s) in
  let line3 := snprintf 48 (alarmText cfg strikes) in
  let line4 := snprintf 48 (statusText isAlarm potPct) in
  vTaskDelay 180 ;;
  ret (mkScreen line1 line2 line3 line4).

(** The percentage that the status line shows. *)
Definition potPct (potVal : Z) : Z := Arduino.map potVal 0 4095 0 100.

End Display.

(** ** The tick among the other contexts *)

(** [timeTask_tick] with what the other contexts do while it runs: [before]
    runs between the release of the time lock (line 172) and the alarm check,
    [gap] between the alarm check (its give of line 179) and the strike check
    (its take of line 187).  An interrupt that arrives inside the strike
    check before the re-read of the hour (line 191) has the effect of one
    that arrives in [gap]: the handler writes only the time, and the check
    reads the time only there. *)
Definition timeTask_tick_among (cfg : AlarmConfig)
  (lockAlarm lockStrike : bool) (before gap : list Op) : Prog unit :=
  hms <- advanceTime ;;
  let '(h, m, s) := hms in
  meanwhile cfg before ;;
  checkAlarm cfg lockAlarm h m s ;;
  meanwhile cfg gap ;;
  checkStrike lockStrike m s.

(** The operations that are runs of the interrupt handler. *)
Definition interrupt (op : Op) : Prop :=
  match op with
  | OpEncoder _ _ => True
  | _ => False
  end.

(** ** The strike check, access by access *)

(** The strike check of lines 185-200 once more, statement by statement, with
    every read and write of a shared variable in its log next to the calls,
    in the order of the source.  The guard of line 188 is a short-circuit
    [&&]: [alarmRinging] is read only when [strikeRemaining] is 0. *)
Module Traced.

Inductive Var : Type := HourNow | StrikeRemaining | AlarmRinging.

Inductive Access : Type :=
| Call (e : Event)
| Load (v : Var) (value : Z)
| Store (v : Var) (value : Z).

Definition Stmts (A : Type) : Type := State -> A * State * list Access.

Definition ret {A : Type} (a : A) : Stmts A := fun s => (a, s, []).

Definition bind {A B : Type} (m : Stmts A) (k : A -> Stmts B) : Stmts B :=
  fun s =>
    let '(a, s1, t1) := m s in
    let '(b, s2, t2) := k a s1 in
    (b, s2, t1 ++ t2).

Declare Scope stmts_scope.
Notation "x <- m ;; k" := (bind m (fun x => k))
  (at level 61, m at next level, right associativity) : stmts_scope.
Notation "m ;; k" := (bind m (fun _ => k))
  (at level 61, right associativity) : stmts_scope.
Local Open Scope stmts_scope.

Definition when (b : bool) (m : Stmts unit) : Stmts unit :=
  if b then m else ret tt.

(** A FreeRTOS call: what the call does to the state, with its events. *)
Definition call {A : Type} (p : Prog A) : Stmts A :=
  fun s => let '(a, s', tr) := p s in (a, s', map Call tr).

Definition load_strikeRemaining : Stmts Z :=
  fun s => (strikeRemaining s, s, [Load StrikeRemaining (strikeRemaining s)]).

Definition load_alarmRinging : Stmts bool :=
  fun s => (alarmRinging s, s, [Load AlarmRinging (Z.b2z (alarmRinging s))]).

Definition load_hourNow : Stmts Z :=
  fun s => (hourNow s, s, [Load HourNow (hourNow s)]).

Definition store_strikeRemaining (v : Z) : Stmts unit :=
  fun s => (tt, set_strikeRemaining v s, [Store StrikeRemaining v]).

Definition checkStrike (lock : bool) (m s : Z) : Stmts unit :=
  when ((m =? 0) && (s =? 0))
    (ok <- call (xSemaphoreTake_dataMutex lock) ;;
     when ok
       (remaining <- load_strikeRemaining ;;
        idle <-
          (if remaining =? 0 then
             ringing <- load_alarmRinging ;;
             ret (negb ringing)
           else ret false) ;;
        when idle
          (call portENTER_CRITICAL ;;
           hour <- load_hourNow ;;
           call portEXIT_CRITICAL ;;
           let hh := CInt.rem hour 12 in
           let hh := if hh =? 0 then 12 else hh in
           store_strikeRemaining hh ;;
           call xSemaphoreGive_alarmSem) ;;
        call xSemaphoreGive_dataMutex)).

(** The calls of a log: a read of [hourNow] shows as the event [ReadHour],
    the other reads and writes do not show. *)
Definition erase (a : Access) : list Event :=
  match a with
  | Call e => [e]
  | Load HourNow h => [ReadHour h]
  | _ => []
  end.

Definition forget {A : Type} (r : A * State * list Access)
  : A * State * list Event :=
  let '(a, s, log) := r in (a, s, flat_map erase log).

Definition log {A : Type} (r : A * State * list Access) : list Access := snd r.

(** The locking discipline of a log, [data] and [time] telling whether
    [dataMutex] and the time lock are held where the log starts: every read
    and write of the alarm state, every give of [alarmSem] and every read of
    the hour happens with [dataMutex] held, every read of the hour with the
    time lock held as well, a lock is taken only when free and given only
    when held. *)
Fixpoint disciplined (data time : bool) (l : list Access) : bool :=
  match l with
  | [] => true
  | Call (Take true) :: l' => negb data && disciplined true time l'
  | Call Give :: l' => data && disciplined false time l'
  | Call EnterCritical :: l' => negb time && disciplined data true l'
  | Call ExitCritical :: l' => time && disciplined data false l'
  | Call Signal :: l' => data && disciplined data time l'
  | Call _ :: l' => disciplined data time l'
  | Load HourNow _ :: l' => data && time && disciplined data time l'
  | Load _ _ :: l' => data && disciplined data time l'
  | Store _ _ :: l' => data && disciplined data time l'
  end.

(** Whether [dataMutex] is held at the end of a log. *)
Fixpoint heldAfter (data : bool) (l : list Access) : bool :=
  match l with
  | [] => data
  | Call (Take true) :: l' => heldAfter true l'
  | Call Give :: l' => heldAfter false l'
  | _ :: l' => heldAfter data l'
  end.

End Traced.

(** * Proofs *)

(** ** Tactics *)

Lemma wrap_int_small x : CInt.in_int x -> CInt.wrap_int x = x.
Proof.
  unfold CInt.in_int, CInt.INT_MIN, CInt.INT_MAX, CInt.wrap_int. intros H.
  rewrite Z.mod_small; lia.
Qed.

Ltac unwrap :=
  unfold CInt.incr, CInt.decr, CInt.add, CInt.sub, CInt.mul, CInt.rem in *;
  rewrite ?wrap_int_small in *
    by (unfold CInt.in_int, CInt.INT_MIN, CInt.INT_MAX; lia).

Ltac prog_unfold :=
  unfold bind, gets, modify, when, ret, emit, final, result, calls,
    portENTER_CRITICAL, portEXIT_CRITICAL, xSemaphoreTake_dataMutex,
    xSemaphoreGive_dataMutex, xSemaphoreGive_alarmSem, tone, noTone,
    vTaskDelay in *.

Ltac bool_to_prop :=
  repeat match goal with
  | H : (_ >=? _) = true |- _ => apply Z.geb_le in H
  | H : (_ >=? _) = false |- _ => rewrite Z.geb_leb in H; apply Z.leb_gt in H
  | H : (_ >? _) = true |- _ => rewrite Z.gtb_ltb in H; apply Z.ltb_lt in H
  | H : (_ >? _) = false |- _ => rewrite Z.gtb_ltb in H; apply Z.ltb_ge in H
  | H : (_ <? _) = true |- _ => apply Z.ltb_lt in H
  | H : (_ <? _) = false |- _ => apply Z.ltb_ge in H
  | H : (_ <=? _) = true |- _ => apply Z.leb_le in H
  | H : (_ <=? _) = false |- _ => apply Z.leb_gt in H
  | H : (_ =? _) = true |- _ => apply Z.eqb_eq in H
  | H : (_ =? _) = false |- _ => apply Z.eqb_neq in H
  end.

Ltac split_if :=
  match goal with
  | |- context [if ?c then _ else _] =>
      let E := fresh "E" in destruct c eqn:E; cbn in *
  end.

Ltac zmod := Z.to_euclidean_division_equations; lia.

(** ** The clock *)

Lemma State_ext s t : clock s = clock t -> same_rest s t -> s = t.
Proof.
  destruct s, t; unfold clock, same_rest; cbn.
  intros [= -> -> ->] (-> & -> & -> & -> & ->). reflexivity.
Qed.

Lemma same_rest_refl s : same_rest s s.
Proof. unfold same_rest; intuition reflexivity. Qed.

Lemma same_rest_trans s t u : same_rest s t -> same_rest t u -> same_rest s u.
Proof. unfold same_rest. intuition congruence. Qed.

Lemma secondTick_step s :
  valid_time s ->
  valid_time (secondTick s) /\
  secondOfDay (secondTick s) = (secondOfDay s + 1) mod 86400.
Proof.
  destruct s as [h m sec sr ar lsm lc sem].
  unfold valid_time, secondOfDay, secondTick, advanceTime; cbn.
  intros (Hh & Hm & Hs). prog_unfold; cbn. unwrap.
  repeat split_if; bool_to_prop; unwrap; cbn.
  all: repeat split; zmod.
Qed.

Lemma secondTick_rest s : same_rest s (secondTick s).
Proof.
  destruct s as [h m sec sr ar lsm lc sem].
  unfold same_rest, secondTick, advanceTime. prog_unfold; cbn.
  repeat split_if; repeat split; reflexivity.
Qed.

Lemma afterSeconds_step n : forall s,
  valid_time s ->
  valid_time (afterSeconds n s) /\
  secondOfDay (afterSeconds n s) = (secondOfDay s + Z.of_nat n) mod 86400.
Proof.
  induction n as [|n IH]; intros s V.
  - cbn [afterSeconds]. split; [exact V|].
    unfold valid_time, secondOfDay in *. rewrite Z.add_0_r, Z.mod_small; lia.
  - cbn [afterSeconds]. destruct (IH s V) as (V' & D).
    destruct (secondTick_step _ V') as (V'' & D').
    split; [exact V''|].
    rewrite D', D, Nat2Z.inj_succ, Zplus_mod_idemp_l. f_equal. lia.
Qed.

Lemma afterSeconds_rest n s : same_rest s (afterSeconds n s).
Proof.
  induction n as [|n IH]; cbn [afterSeconds].
  - apply same_rest_refl.
  - eapply same_rest_trans; [exact IH | apply secondTick_rest].
Qed.

Lemma clock_determined s t :
  valid_time s -> valid_time t -> secondOfDay s = secondOfDay t ->
  clock s = clock t.
Proof.
  unfold valid_time, secondOfDay, clock. intros.
  assert (hourNow s = hourNow t) by lia.
  assert (minuteNow s = minuteNow t) by lia.
  assert (secondNow s = secondNow t) by lia.
  congruence.
Qed.

Lemma afterSeconds_day n s :
  Z.of_nat n = 86400 -> valid_time s -> afterSeconds n s = s.
Proof.
  intros N V. destruct (afterSeconds_step n s V) as (V' & D).
  rewrite N in D.
  symmetry. apply State_ext; [|apply afterSeconds_rest].
  apply clock_determined; [exact V | exact V' |].
  rewrite D. unfold valid_time, secondOfDay in V |- *. zmod.
Qed.

(** The clock of a tick is the clock of the increment: the two checks of the
    tick do not write the time. *)
Lemma tick_clock cfg la ls s :
  clock (final (timeTask_tick cfg la ls s)) = clock (secondTick s).
Proof.
  destruct s as [h m sec sr ar lsm lc sem].
  unfold timeTask_tick, checkAlarm, checkStrike, secondTick, advanceTime, clock.
  prog_unfold; cbn.
  repeat split_if; reflexivity.
Qed.

Lemma valid_time_clock s t : clock s = clock t -> valid_time s -> valid_time t.
Proof. unfold clock, valid_time. intros [= -> -> ->]. trivial. Qed.

Lemma secondOfDay_clock s t : clock s = clock t -> secondOfDay s = secondOfDay t.
Proof. unfold clock, secondOfDay. intros [= -> -> ->]. trivial. Qed.

Lemma runTicks_step cfg locks : forall s,
  valid_time s ->
  valid_time (runTicks cfg locks s) /\
  secondOfDay (runTicks cfg locks s) =
    (secondOfDay s + Z.of_nat (length locks)) mod 86400.
Proof.
  induction locks as [|l locks IH]; intros s V.
  - cbn. split; [exact V|].
    unfold valid_time, secondOfDay in *. rewrite Z.add_0_r, Z.mod_small; lia.
  - unfold runTicks in *. cbn [fold_left length].
    destruct (secondTick_step s V) as (V1 & D1).
    pose proof (tick_clock cfg (fst l) (snd l) s) as C.
    assert (V2 : valid_time (final (timeTask_tick cfg (fst l) (snd l) s)))
      by (eapply valid_time_clock; [symmetry; exact C | exact V1]).
    destruct (IH _ V2) as (V3 & D3). split; [exact V3|].
    rewrite D3, (secondOfDay_clock _ _ C), D1, Nat2Z.inj_succ, Zplus_mod_idemp_l.
    f_equal. lia.
Qed.

(** C6: for every valid time of day, 86,400 one-second increments of the
    clock (lines 159-172) give back the state they started from; and 86,400
    ticks of [timeTask], whatever the outcomes of their lock acquisitions,
    show the time they started from. *)
Theorem full_day_round_trip (s : State) :
  valid_time s ->
  afterSeconds (Z.to_nat 86400) s = s /\
  forall cfg locks,
    Z.of_nat (length locks) = 86400 ->
    clock (runTicks cfg locks s) = clock s.
Proof.
  intros V. split.
  - apply afterSeconds_day; [apply Z2Nat.id; lia | exact V].
  - intros cfg locks L. destruct (runTicks_step cfg locks s V) as (V' & D).
    symmetry. apply clock_determined; [exact V | exact V' |].
    rewrite D, L. unfold valid_time, secondOfDay in V |- *. zmod.
Qed.

Lemma full_day_round_trip_witness :
  afterSeconds (Z.to_nat 86400) (initialState 0 HIGH) = initialState 0 HIGH.
Proof.
  apply (full_day_round_trip (initialState 0 HIGH)).
  unfold valid_time; cbn; lia.
Defined.

(** ** The minute adjuster *)

Lemma encoderISR_ignored clk dt s :
  negb (Bool.eqb clk (lastClk s)) && Bool.eqb clk HIGH = false ->
  final (encoderISR clk dt s) = set_lastClk clk s.
Proof.
  intros E. unfold encoderISR. prog_unfold. cbn. rewrite E. reflexivity.
Qed.

(** C7: on an accepted transition of the encoder (a rising edge of the clock
    line) at a valid time of day, a forward step adds one minute, wrapping
    minute 60 to 0 with the hour incremented mod 24, a backward step
    subtracts one minute, wrapping below 0 to 59 with the hour decremented
    mod 24, and the second is reset to 0; so 23:59 steps forward to 00:00 and
    00:00 steps backward to 23:59. *)
Theorem minute_adjustment (s : State) (dt : bool) :
  valid_time s ->
  lastClk s = LOW ->
  let s' := final (encoderISR HIGH dt s) in
  (dt = LOW ->
     (hourNow s', minuteNow s') = spec_minute_forward (hourNow s, minuteNow s)) /\
  (dt = HIGH ->
     (hourNow s', minuteNow s') = spec_minute_backward (hourNow s, minuteNow s)) /\
  secondNow s' = 0 /\
  (dt = LOW -> hourNow s = 23 -> minuteNow s = 59 ->
     hourNow s' = 0 /\ minuteNow s' = 0) /\
  (dt = HIGH -> hourNow s = 0 -> minuteNow s = 0 ->
     hourNow s' = 23 /\ minuteNow s' = 59) /\
  valid_time s' /\ same_alarm_state s s'.
Proof.
  destruct s as [h m sec sr ar lsm lc sem].
  unfold valid_time, same_alarm_state, spec_minute_forward,
    spec_minute_backward, encoderISR, HIGH, LOW; cbn.
  intros (Hh & Hm & Hs) ->. prog_unfold; cbn.
  destruct dt; cbn; unwrap.
  - destruct (m - 1 <? 0) eqn:E; cbn; bool_to_prop; unwrap;
      repeat split; intros; try discriminate; try (f_equal; zmod); zmod.
  - destruct (m + 1 >=? 60) eqn:E; cbn; bool_to_prop; unwrap.
    + assert (m + 1 = 60) as -> by lia. cbn.
      repeat split; intros; try discriminate; try (f_equal; zmod); zmod.
    + destruct (m + 1 =? 60) eqn:E'; bool_to_prop; [lia|].
      repeat split; intros; try discriminate; try (f_equal; zmod); zmod.
Qed.

Lemma minute_adjustment_witness :
  let s := mkState 23 59 17 0 false 0 LOW false in
  let s' := final (encoderISR HIGH LOW s) in
  hourNow s' = 0 /\ minuteNow s' = 0 /\ secondNow s' = 0.
Proof.
  intros s s'.
  destruct (minute_adjustment s LOW) as (_ & _ & S0 & F & _).
  - unfold valid_time; cbn; lia.
  - reflexivity.
  - destruct F as (A & B); try reflexivity. repeat split; assumption.
Defined.

(** ** The tick, block by block *)

Lemma advanceTime_eq s :
  advanceTime s = (clock (secondTick s), secondTick s, [EnterCritical; ExitCritical]).
Proof.
  destruct s as [h m sec sr ar lsm lc sem].
  unfold secondTick, advanceTime, clock. prog_unfold; cbn.
  repeat split_if; reflexivity.
Qed.

Lemma timeTask_tick_eq cfg la ls s :
  timeTask_tick cfg la ls s =
  let s1 := secondTick s in
  let r1 := checkAlarm cfg la (hourNow s1) (minuteNow s1) (secondNow s1) s1 in
  let r2 := checkStrike ls (minuteNow s1) (secondNow s1) (final r1) in
  (tt, final r2, [EnterCritical; ExitCritical] ++ calls r1 ++ calls r2).
Proof.
  unfold timeTask_tick, bind at 1. rewrite advanceTime_eq. unfold clock.
  cbv zeta. unfold bind, final, calls.
  destruct (checkAlarm _ _ _ _ _ _) as [[[] s2] t2]; cbn.
  destruct (checkStrike _ _ _ _) as [[[] s3] t3]; cbn. reflexivity.
Qed.

Lemma secondTick_alarm_state s : same_alarm_state s (secondTick s).
Proof.
  destruct (secondTick_rest s) as (A & B & _). split; assumption.
Qed.

(** ** The triggers of the tick *)

Lemma rem_12_mod h : 0 <= h -> Z.rem h 12 = h mod 12.
Proof. intros. apply Z.rem_mod_nonneg; lia. Qed.

(** C1: when the strike check arms (minute and second 0 on the tick's copy,
    the lock acquired, [strikeRemaining] 0 and [alarmRinging] false), the
    count stored in [strikeRemaining] is the current hour mod 12 with 0
    mapped to 12; hours 0 and 12 both give 12 strikes. *)
Theorem strike_count_armed (m sec : Z) (s : State) :
  m = 0 -> sec = 0 ->
  0 <= hourNow s < 24 ->
  strikeRemaining s = 0 -> alarmRinging s = false ->
  let s' := final (checkStrike true m sec s) in
  strikeRemaining s' = spec_strike_count (hourNow s) /\
  (hourNow s = 0 \/ hourNow s = 12 -> strikeRemaining s' = 12) /\
  alarmSem s' = true /\
  clock s' = clock s /\ alarmRinging s' = false.
Proof.
  destruct s as [h mn sc sr ar lsm lc sem]; cbn.
  intros -> -> Hh -> ->. unfold checkStrike, spec_strike_count, clock.
  prog_unfold; cbn. unwrap. rewrite rem_12_mod by lia.
  destruct (h mod 12 =? 0) eqn:E; cbn; bool_to_prop;
    repeat split; try reflexivity; intros; zmod.
Qed.

Lemma strike_count_armed_witness :
  strikeRemaining
    (final (checkStrike true 0 0 (mkState 12 0 0 0 false 0 HIGH false))) = 12 /\
  strikeRemaining
    (final (checkStrike true 0 0 (mkState 17 0 0 0 false 0 HIGH false))) =
  spec_strike_count 17.
Proof.
  split.
  - destruct (strike_count_armed 0 0 (mkState 12 0 0 0 false 0 HIGH false))
      as (_ & T & _);
      [reflexivity | reflexivity | cbn; lia | reflexivity | reflexivity |].
    apply T. now right.
  - destruct (strike_count_armed 0 0 (mkState 17 0 0 0 false 0 HIGH false))
      as (T & _);
      [reflexivity | reflexivity | cbn; lia | reflexivity | reflexivity |].
    exact T.
Defined.

(** C3, as stated, fails: at 05:29:59 with the sketch's alarm time the next
    tick matches the alarm; when its lock acquisition times out the flag is
    not set, yet line 182 still gives [alarmSem]. *)
Lemma alarm_timeout_still_signals :
  let s := mkState 5 29 59 0 false 0 HIGH false in
  let r := timeTask_tick sketchAlarm false false s in
  clock (final r) = (alarmHour sketchAlarm, alarmMinute sketchAlarm, 0) /\
  In (Take false) (calls r) /\
  ~ silently_skipped s r.
Proof.
  cbv zeta. split; [reflexivity|]. split.
  - cbn. auto.
  - intros (_ & Sem & _). cbn in Sem. discriminate.
Qed.

(** C3, amended: when the lock acquisition of a trigger times out, neither
    [alarmRinging] nor [strikeRemaining] is written.  A strike check that
    times out changes nothing and sends no signal; an alarm check that times
    out still gives [alarmSem].  On a tick whose acquisitions all time out
    the alarm state is as before, and the signal is sent exactly when the
    tick matches the alarm time. *)
Theorem lock_timeout_skips (cfg : AlarmConfig) (s : State) :
  (let r := checkAlarm cfg false (alarmHour cfg) (alarmMinute cfg) 0 s in
   same_alarm_state s (final r) /\ clock (final r) = clock s /\
   alarmSem (final r) = true /\ calls r = [Take false; Signal]) /\
  (let r := checkStrike false 0 0 s in
   final r = s /\ calls r = [Take false]) /\
  (let r := timeTask_tick cfg false false s in
   same_alarm_state s (final r) /\
   (In Signal (calls r) <->
    clock (secondTick s) = (alarmHour cfg, alarmMinute cfg, 0))).
Proof.
  split; [|split].
  - destruct s as [h m sec sr ar lsm lc sem], cfg as [ah am].
    unfold same_alarm_state, clock, checkAlarm. prog_unfold; cbn.
    rewrite !Z.eqb_refl. cbn. repeat split.
  - destruct s as [h m sec sr ar lsm lc sem]. split; reflexivity.
  - cbv zeta. rewrite timeTask_tick_eq. cbv zeta.
    pose proof (secondTick_alarm_state s) as (A & B).
    destruct (secondTick s) as [h m sec sr ar lsm lc sem].
    destruct cfg as [ah am]. cbn in A, B.
    unfold same_alarm_state, clock, checkAlarm, checkStrike.
    prog_unfold; cbn.
    destruct (h =? ah) eqn:Eh, (m =? am) eqn:Em, (sec =? 0) eqn:Es;
      bool_to_prop; subst; cbn;
      try (destruct (m =? 0) eqn:Em0; cbn);
      try (destruct (am =? 0) eqn:Em0; cbn);
      (split; [split; congruence|]);
      (split; [intros H; repeat (destruct H as [H|H]; try discriminate);
               try reflexivity; try contradiction
              | intros [= ]; subst; cbn; try lia; try congruence; auto 8]).
Qed.

Lemma checkStrike_guarded m sec s :
  strikeRemaining s <> 0 \/ alarmRinging s = true ->
  m = 0 -> sec = 0 ->
  checkStrike true m sec s = (tt, s, [Take true; Give]).
Proof.
  destruct s as [h mm ss sr ar lsm lc sem]; cbn. intros Act -> ->.
  unfold checkStrike. prog_unfold; cbn.
  destruct (sr =? 0) eqn:E; bool_to_prop; cbn; [|reflexivity].
  destruct Act as [N | ->]; [contradiction|]. reflexivity.
Qed.

Lemma timeTask_tick_among_eq cfg la ls before gap s :
  timeTask_tick_among cfg la ls before gap s =
  let s1 := secondTick s in
  let r1 := checkAlarm cfg la (hourNow s1) (minuteNow s1) (secondNow s1)
              (performAll cfg before s1) in
  let r2 := checkStrike ls (minuteNow s1) (secondNow s1)
              (performAll cfg gap (final r1)) in
  (tt, final r2, [EnterCritical; ExitCritical] ++ calls r1 ++ calls r2).
Proof.
  unfold timeTask_tick_among, bind at 1. rewrite advanceTime_eq. unfold clock.
  cbv zeta. unfold bind, meanwhile, modify, final, calls.
  destruct (checkAlarm _ _ _ _ _ _) as [[[] s2] t2]; cbn.
  destruct (checkStrike _ _ _ _) as [[[] s3] t3]; cbn. reflexivity.
Qed.

Lemma timeTask_tick_alone cfg la ls s :
  timeTask_tick_among cfg la ls [] [] s = timeTask_tick cfg la ls s.
Proof. rewrite timeTask_tick_among_eq, timeTask_tick_eq. reflexivity. Qed.

Lemma checkAlarm_hit cfg h m t :
  h = alarmHour cfg -> m = alarmMinute cfg ->
  checkAlarm cfg true h m 0 t =
  (tt, set_alarmSem true (set_alarmRinging true t), [Take true; Give; Signal]).
Proof.
  intros -> ->. unfold checkAlarm. rewrite !Z.eqb_refl. destruct t; reflexivity.
Qed.

Lemma checkAlarm_keeps_ringing cfg lock h m sec t :
  alarmRinging t = true ->
  alarmRinging (final (checkAlarm cfg lock h m sec t)) = true.
Proof.
  destruct t as [hh mm ss sr ar lsm lc sem]; cbn. intros ->.
  unfold checkAlarm. prog_unfold; cbn.
  destruct ((h =? alarmHour cfg) && (m =? alarmMinute cfg) && (sec =? 0));
    cbn; [destruct lock|]; reflexivity.
Qed.

Lemma checkStrike_ringing lock m sec t :
  alarmRinging (final (checkStrike lock m sec t)) = alarmRinging t.
Proof.
  destruct t as [hh mm ss sr ar lsm lc sem].
  unfold checkStrike. prog_unfold; cbn.
  repeat split_if; reflexivity.
Qed.

Lemma encoderISR_alarm_state clk dt t :
  same_alarm_state t (final (encoderISR clk dt t)) /\
  alarmSem (final (encoderISR clk dt t)) = alarmSem t.
Proof.
  destruct t as [hh mm ss sr ar lsm lc sem].
  unfold same_alarm_state, encoderISR. prog_unfold; cbn.
  repeat split_if; repeat split; reflexivity.
Qed.

(** Only a stop press that acquires the lock clears [alarmRinging]. *)
Lemma perform_keeps_ringing cfg op t :
  op <> OpStopPress true -> alarmRinging t = true ->
  alarmRinging (perform cfg op t) = true.
Proof.
  intros N R. destruct op; cbn [perform].
  - destruct (secondTick_rest t) as (_ & E & _). unfold secondTick in E.
    congruence.
  - apply checkAlarm_keeps_ringing, R.
  - rewrite checkStrike_ringing. exact R.
  - rewrite timeTask_tick_eq. cbv zeta. cbn [final fst snd].
    fold (final (checkStrike lockStrike (minuteNow (secondTick t))
                   (secondNow (secondTick t))
                   (final (checkAlarm cfg lockAlarm (hourNow (secondTick t))
                             (minuteNow (secondTick t))
                             (secondNow (secondTick t)) (secondTick t))))).
    rewrite checkStrike_ringing. apply checkAlarm_keeps_ringing.
    destruct (secondTick_rest t) as (_ & E & _). congruence.
  - destruct (encoderISR_alarm_state clk dt t) as ((E & _) & _). congruence.
  - destruct t as [hh mm ss sr ar lsm lc sem]. cbn in R. subst ar.
    unfold strikeDecrement. prog_unfold; cbn.
    destruct lock; cbn; [|reflexivity]. destruct (sr >? 0); reflexivity.
  - destruct lock; [contradiction|]. destruct t; exact R.
Qed.

Lemma performAll_keeps_ringing cfg ops : forall t,
  Forall (fun op => op <> OpStopPress true) ops ->
  alarmRinging t = true -> alarmRinging (performAll cfg ops t) = true.
Proof.
  induction ops as [|op ops IH]; intros t F R; cbn.
  - exact R.
  - inversion F as [|? ? N F']; subst.
    apply IH; [exact F' | apply perform_keeps_ringing; assumption].
Qed.

(** C4, as stated, fails: the alarm is set for 05:00 and the tick reaches
    05:00:00.  The alarm check sets [alarmRinging] and gives [dataMutex]
    back (line 179); a stop press that acquires the lock before the strike
    check takes it (line 187) clears the flag; the guard of line 188 then
    holds and five strikes are armed, although every acquisition succeeded. *)
Lemma stop_press_between_checks_arms :
  let s := mkState 4 59 59 0 false 0 HIGH false in
  let r := timeTask_tick_among (mkAlarm 5 0) true true [] [OpStopPress true] s in
  clock (final r) = (5, 0, 0) /\
  calls r = [EnterCritical; ExitCritical; Take true; Give; Signal;
             Take true; EnterCritical; ReadHour 5; ExitCritical; Signal; Give] /\
  strikeRemaining (final r) = 5 /\
  alarmRinging (final r) = false.
Proof. cbv zeta. repeat split. Qed.

(** C4, amended: when the alarm minute is 0 and a tick reaches the alarm
    time, with both acquisitions of the tick succeeding and no stop press
    acquiring the lock between the tick's alarm check and its strike check,
    the alarm check runs first and sets [alarmRinging]; the guard of the
    strike check then fails: the strike check writes nothing, the hour is not
    re-read and only the alarm's signal is sent.  Whatever else the other
    contexts do during the tick does not change this; run alone, the tick
    leaves [strikeRemaining] as it found it. *)
Theorem alarm_suppresses_strike (cfg : AlarmConfig) (before gap : list Op)
  (s : State) :
  alarmMinute cfg = 0 ->
  clock (secondTick s) = (alarmHour cfg, 0, 0) ->
  Forall (fun op => op <> OpStopPress true) gap ->
  let r := timeTask_tick_among cfg true true before gap s in
  let rung :=
    set_alarmSem true
      (set_alarmRinging true (performAll cfg before (secondTick s))) in
  alarmRinging (final r) = true /\
  final r = performAll cfg gap rung /\
  calls r = [EnterCritical; ExitCritical; Take true; Give; Signal;
             Take true; Give] /\
  (before = [] -> gap = [] ->
   r = timeTask_tick cfg true true s /\
   strikeRemaining (final r) = strikeRemaining s).
Proof.
  intros Am C F. cbv zeta. rewrite timeTask_tick_among_eq. cbv zeta.
  injection C as Ch Cm Cs. rewrite Ch, Cm, Cs.
  rewrite (checkAlarm_hit cfg _ _ _ eq_refl (eq_sym Am)).
  cbn [final calls fst snd].
  set (rung := set_alarmSem true
                 (set_alarmRinging true (performAll cfg before (secondTick s)))).
  assert (R : alarmRinging (performAll cfg gap rung) = true)
    by (apply performAll_keeps_ringing; [exact F | reflexivity]).
  rewrite checkStrike_guarded by (trivial; right; exact R).
  cbn [final calls fst snd app].
  split; [exact R|]. split; [reflexivity|]. split; [reflexivity|].
  intros -> ->. split.
  - rewrite <- timeTask_tick_alone, timeTask_tick_among_eq. cbv zeta.
    rewrite Ch, Cm, Cs. rewrite (checkAlarm_hit cfg _ _ _ eq_refl (eq_sym Am)).
    cbn [final calls fst snd performAll fold_left].
    rewrite checkStrike_guarded by (trivial; right; reflexivity).
    reflexivity.
  - subst rung. cbn [performAll fold_left strikeRemaining set_alarmSem
                     set_alarmRinging].
    destruct (secondTick_rest s) as (E & _). exact E.
Qed.

Lemma alarm_suppresses_strike_witness :
  let r := timeTask_tick_among (mkAlarm 5 0) true true
             [OpEncoder LOW LOW] [OpStopPress false; OpEncoder HIGH HIGH]
             (mkState 4 59 59 0 false 0 HIGH false) in
  alarmRinging (final r) = true /\
  calls r = [EnterCritical; ExitCritical; Take true; Give; Signal;
             Take true; Give].
Proof.
  cbv zeta.
  destruct (alarm_suppresses_strike (mkAlarm 5 0)
              [OpEncoder LOW LOW] [OpStopPress false; OpEncoder HIGH HIGH]
              (mkState 4 59 59 0 false 0 HIGH false)) as (A & _ & B & _).
  - reflexivity.
  - reflexivity.
  - repeat constructor; discriminate.
  - split; [exact A | exact B].
Defined.

(** C9, as stated, fails: at 06:00:00 the strike check arms six strikes and
    its re-read of the hour is made while [dataMutex] is still held. *)
Lemma hour_reread_inside_lock :
  let r := checkStrike true 0 0 (mkState 6 0 0 0 false 0 HIGH false) in
  strikeRemaining (final r) = 6 /\
  ~ reread_after_release (calls r).
Proof.
  cbv zeta. split; [reflexivity|].
  intros H. specialize (H [Take true; EnterCritical] 6
                          [ExitCritical; Signal; Give] eq_refl).
  discriminate.
Qed.

Ltac stmts_unfold :=
  unfold Traced.checkStrike, Traced.when, Traced.bind, Traced.ret,
    Traced.call, Traced.load_strikeRemaining, Traced.load_alarmRinging,
    Traced.load_hourNow, Traced.store_strikeRemaining, Traced.forget,
    Traced.log in *.

(** The access-by-access strike check is the strike check: same state, same
    calls. *)
Lemma traced_checkStrike_forget lock m sec s :
  Traced.forget (Traced.checkStrike lock m sec s) = checkStrike lock m sec s.
Proof.
  destruct s as [h mm ss sr ar lsm lc sem].
  unfold checkStrike. stmts_unfold. prog_unfold. cbn.
  destruct ((m =? 0) && (sec =? 0)); cbn; [|reflexivity].
  destruct lock; cbn; [|reflexivity].
  destruct (sr =? 0); cbn; [|reflexivity].
  destruct ar; reflexivity.
Qed.

Lemma traced_checkStrike_disciplined lock m sec s :
  Traced.disciplined false false
    (Traced.log (Traced.checkStrike lock m sec s)) = true /\
  Traced.heldAfter false (Traced.log (Traced.checkStrike lock m sec s)) = false.
Proof.
  destruct s as [h mm ss sr ar lsm lc sem].
  stmts_unfold. prog_unfold. cbn.
  destruct ((m =? 0) && (sec =? 0)); cbn; [|split; reflexivity].
  destruct lock; cbn; [|split; reflexivity].
  destruct (sr =? 0); cbn; [|split; reflexivity].
  destruct ar; split; reflexivity.
Qed.

(** C9, amended: in the strike check the guard is evaluated and the hour is
    re-read under the fast time lock while [dataMutex] is held; the mutex is
    given back after the count is stored and the signal sent.  Access by
    access: the take, the two reads of the guard, the time lock, the read of
    the hour, the end of the time lock, the store of the count, the signal,
    the give; and on every path through the check, every access to the alarm
    state lies between the take and the give. *)
Theorem hour_reread_under_lock (s : State) :
  strikeRemaining s = 0 -> alarmRinging s = false ->
  let r := checkStrike true 0 0 s in
  (calls r = [Take true; EnterCritical; ReadHour (hourNow s); ExitCritical;
              Signal; Give] /\
   reread_under_lock (calls r) /\
   mutexHeld false (calls r) = false) /\
  (let t := Traced.checkStrike true 0 0 s in
   Traced.forget t = r /\
   Traced.log t =
     [Traced.Call (Take true);
      Traced.Load Traced.StrikeRemaining 0;
      Traced.Load Traced.AlarmRinging 0;
      Traced.Call EnterCritical;
      Traced.Load Traced.HourNow (hourNow s);
      Traced.Call ExitCritical;
      Traced.Store Traced.StrikeRemaining (strikeRemaining (final r));
      Traced.Call Signal;
      Traced.Call Give]) /\
  (forall lock m sec s',
     let t := Traced.checkStrike lock m sec s' in
     Traced.forget t = checkStrike lock m sec s' /\
     Traced.disciplined false false (Traced.log t) = true /\
     Traced.heldAfter false (Traced.log t) = false).
Proof.
  intros Sr Rg. cbv zeta. split; [|split].
  - destruct s as [h m sec sr ar lsm lc sem]; cbn in Sr, Rg. subst sr ar.
    unfold checkStrike, reread_under_lock. prog_unfold; cbn.
    repeat split.
    intros pre h' post E.
    destruct pre as [|e0 [|e1 [|e2 [|e3 [|e4 [|e5 [|e6 pre]]]]]]];
      cbn in E; try discriminate; injection E as <-; subst; try discriminate;
      try reflexivity.
  - split; [apply traced_checkStrike_forget|].
    destruct s as [h m sec sr ar lsm lc sem]; cbn in Sr, Rg. subst sr ar.
    reflexivity.
  - intros lock m sec s'. split; [apply traced_checkStrike_forget|].
    apply traced_checkStrike_disciplined.
Qed.

Lemma hour_reread_under_lock_witness :
  reread_under_lock
    (calls (checkStrike true 0 0 (mkState 6 0 0 0 false 0 HIGH false))) /\
  Traced.log (Traced.checkStrike true 0 0 (mkState 6 0 0 0 false 0 HIGH false)) =
    [Traced.Call (Take true);
     Traced.Load Traced.StrikeRemaining 0;
     Traced.Load Traced.AlarmRinging 0;
     Traced.Call EnterCritical;
     Traced.Load Traced.HourNow 6;
     Traced.Call ExitCritical;
     Traced.Store Traced.StrikeRemaining 6;
     Traced.Call Signal;
     Traced.Call Give].
Proof.
  destruct (hour_reread_under_lock (mkState 6 0 0 0 false 0 HIGH false))
    as ((_ & A & _) & (_ & B) & _); [reflexivity | reflexivity |].
  split; [exact A | exact B].
Defined.

(** ** The buzzer *)

Lemma buzzerFreq_eq p :
  0 <= p <= 4095 -> buzzerFreq p = p * 2200 / 4095 + 800.
Proof.
  intros H. unfold buzzerFreq, Arduino.map, BUZZER_FREQ_MIN, BUZZER_FREQ_MAX.
  change (CInt.sub 4095 0 =? 0) with false. cbv iota.
  change (CInt.sub 4095 0) with 4095. change (CInt.sub 3000 800) with 2200.
  unfold CInt.sub, CInt.mul, CInt.div, CInt.add.
  rewrite (wrap_int_small (p - 0))
    by (unfold CInt.in_int, CInt.INT_MIN, CInt.INT_MAX; lia).
  rewrite (wrap_int_small ((p - 0) * 2200))
    by (unfold CInt.in_int, CInt.INT_MIN, CInt.INT_MAX; lia).
  replace (p - 0) with p by lia.
  rewrite Z.quot_div_nonneg by lia.
  assert (0 <= p * 2200 / 4095 <= 2200) by zmod.
  rewrite (wrap_int_small (p * 2200 / 4095))
    by (unfold CInt.in_int, CInt.INT_MIN, CInt.INT_MAX; lia).
  rewrite wrap_int_small
    by (unfold CInt.in_int, CInt.INT_MIN, CInt.INT_MAX; lia).
  reflexivity.
Qed.

Lemma buzzerFreq_mono p q :
  0 <= p <= q -> q <= 4095 ->
  BUZZER_FREQ_MIN <= buzzerFreq p <= buzzerFreq q /\
  buzzerFreq q <= BUZZER_FREQ_MAX.
Proof.
  intros Hp Hq. rewrite !buzzerFreq_eq by lia.
  unfold BUZZER_FREQ_MIN, BUZZER_FREQ_MAX.
  assert (p * 2200 / 4095 <= q * 2200 / 4095)
    by (apply Z.div_le_mono; lia).
  split; [split|]; zmod.
Qed.

(** C2, as stated, fails: a reading equal to the threshold is not muted; both
    loops call [tone] with 826 Hz. *)
Lemma threshold_reading_sounds :
  let s := initialState 0 HIGH in
  50 <= POT_MIN_THRESHOLD /\
  calls (strikeTone 50 s) = [Tone 826] /\
  calls (ringTone 50 s) = [Tone 826] /\
  ~ toneless (calls (strikeTone 50 s)).
Proof.
  cbv zeta. repeat split; try (unfold POT_MIN_THRESHOLD; lia).
  intros H. apply (H 826). left. reflexivity.
Qed.

(** C2, amended: for readings in 0..4095, in both playback loops, a reading
    below the threshold 50 is muted, a reading of 50 or more calls [tone]
    with a frequency between 800 and 3000 that is non-decreasing in the
    reading, and the reading 4095 gives exactly 3000. *)
Theorem volume_to_tone (p q : Z) (s : State) :
  0 <= p <= q -> q <= 4095 ->
  (p < POT_MIN_THRESHOLD ->
     calls (strikeTone p s) = [NoTone] /\ calls (ringTone p s) = [NoTone]) /\
  (POT_MIN_THRESHOLD <= p ->
     calls (strikeTone p s) = [Tone (buzzerFreq p)] /\
     calls (ringTone p s) = [Tone (buzzerFreq p)] /\
     calls (strikeTone q s) = [Tone (buzzerFreq q)] /\
     calls (ringTone q s) = [Tone (buzzerFreq q)] /\
     BUZZER_FREQ_MIN <= buzzerFreq p <= buzzerFreq q /\
     buzzerFreq q <= BUZZER_FREQ_MAX) /\
  calls (strikeTone 4095 s) = [Tone BUZZER_FREQ_MAX] /\
  calls (ringTone 4095 s) = [Tone BUZZER_FREQ_MAX].
Proof.
  intros Hp Hq.
  assert (Mute : forall x t, x < 50 ->
            calls (strikeTone x t) = [NoTone] /\ calls (ringTone x t) = [NoTone]).
  { intros x t L. unfold strikeTone, ringTone, POT_MIN_THRESHOLD.
    destruct (Z.ltb_spec x 50); [|lia]. split; reflexivity. }
  assert (Play : forall x t, 50 <= x ->
            calls (strikeTone x t) = [Tone (buzzerFreq x)] /\
            calls (ringTone x t) = [Tone (buzzerFreq x)]).
  { intros x t L. unfold strikeTone, ringTone, POT_MIN_THRESHOLD, buzzerFreq.
    destruct (Z.ltb_spec x 50); [lia|]. split; reflexivity. }
  unfold POT_MIN_THRESHOLD.
  split; [|split].
  - intros L. apply Mute, L.
  - intros L. destruct (Play p s L) as (-> & ->).
    destruct (Play q s) as (-> & ->); [lia|].
    repeat split; apply (buzzerFreq_mono p q Hp Hq).
  - change BUZZER_FREQ_MAX with (buzzerFreq 4095). apply Play. lia.
Qed.

Lemma volume_to_tone_witness :
  calls (strikeTone 49 (initialState 0 HIGH)) = [NoTone] /\
  buzzerFreq 2048 <= buzzerFreq 4095.
Proof.
  destruct (volume_to_tone 49 4095 (initialState 0 HIGH)) as (A & _);
    [lia | lia |].
  destruct (volume_to_tone 2048 4095 (initialState 0 HIGH)) as (_ & B & _);
    [lia | lia |].
  split.
  - apply A. unfold POT_MIN_THRESHOLD. lia.
  - apply B. unfold POT_MIN_THRESHOLD. lia.
Defined.

Lemma bind_eq {A B} (m : Prog A) (k : A -> Prog B) s :
  bind m k s =
  (result (k (result (m s)) (final (m s))),
   final (k (result (m s)) (final (m s))),
   calls (m s) ++ calls (k (result (m s)) (final (m s)))).
Proof.
  unfold bind, result, final, calls.
  destruct (m s) as [[a s1] t1]; cbn.
  destruct (k a s1) as [[b s2] t2]; reflexivity.
Qed.

Lemma strikeLoop_none cfg beats strikes s :
  strikes <= 0 -> strikeLoop cfg beats strikes s = (Some beats, s, []).
Proof.
  intros H. destruct beats as [|b rest]; cbn;
    destruct (Z.gtb_spec strikes 0); try lia; reflexivity.
Qed.

Lemma ringLoop_none cfg beats s :
  ringLoop cfg beats false s = (Some beats, s, []).
Proof. destruct beats; reflexivity. Qed.

Lemma buzzerTask_read_timeout cfg lockRing beats s :
  alarmSem s = true ->
  buzzerTask cfg false lockRing beats s =
  let ring := ringStage cfg lockRing beats (set_alarmSem false s) in
  (result ring, final ring, Wake :: Take false :: calls ring).
Proof.
  intros Sem. unfold buzzerTask, readAlarmState. prog_unfold.
  rewrite Sem. cbn. rewrite strikeLoop_none by lia.
  destruct (ringStage cfg lockRing beats (set_alarmSem false s))
    as [[a s2] t2]. reflexivity.
Qed.




(** ** The stop button *)

Lemma invariant_pressed v0 : Interleaving.invariant v0 (Interleaving.pressed v0).
Proof.
  unfold Interleaving.invariant, Interleaving.pressed; cbn.
  repeat split; try discriminate. constructor.
Qed.

Lemma invariant_step v0 y z :
  Interleaving.invariant v0 y -> Interleaving.step y z ->
  Interleaving.invariant v0 z.
Proof.
  unfold Interleaving.invariant.
  intros (V & SH & RH & G & O) St.
  inversion St; subst; cbn in *.
  all: try (destruct r; cbn in *); try (destruct p; cbn in *).
  all: repeat split; intros; subst; cbn in *;
    try discriminate; try congruence; auto.
  all: try (specialize (SH eq_refl)); try (specialize (RH eq_refl));
    try discriminate; try congruence.
  all: try (constructor; [|exact O]).
  all: try (rewrite (G b eq_refl); auto).
  all: try (right; reflexivity).
Qed.

Lemma invariant_reaches v0 y :
  Interleaving.reaches (Interleaving.pressed v0) y ->
  Interleaving.invariant v0 y.
Proof.
  induction 1 as [|b c _ IH St].
  - apply invariant_pressed.
  - exact (invariant_step _ _ _ IH St).
Qed.

Lemma stopPress_reaches v :
  Interleaving.reaches (Interleaving.pressed v)
    (Interleaving.mkSys (final (stopPress true v)) None
       Interleaving.Released Interleaving.Idle []).
Proof.
  unfold Interleaving.pressed.
  eapply Interleaving.reaches_step;
    [eapply Interleaving.reaches_step;
      [eapply Interleaving.reaches_step;
        [eapply Interleaving.reaches_step;
          [apply Interleaving.reaches_here | apply Interleaving.stop_take]
        | apply Interleaving.stop_clear_ringing]
      | apply Interleaving.stop_clear_strikes]
    | apply Interleaving.stop_give].
Qed.

(** C5: from a state with [strikeRemaining] = N > 0 and [alarmRinging]
    true, a stop press that acquires the lock clears both fields inside one
    critical section; run statement by statement against a reader that takes
    the same lock, under any schedule, every pair the reader reads is the
    pair before the press or (false, 0), never [alarmRinging] true with
    [strikeRemaining] 0.  A press whose acquisition times out changes
    nothing. *)
Theorem stop_clears_atomically (N : Z) (s : State) :
  0 < N -> strikeRemaining s = N -> alarmRinging s = true ->
  (let r := stopPress true s in
   alarmRinging (final r) = false /\ strikeRemaining (final r) = 0 /\
   clock (final r) = clock s /\ calls r = [Take true; Give]) /\
  (let r := stopPress false s in final r = s /\ calls r = [Take false]) /\
  (forall y, Interleaving.reaches (Interleaving.pressed s) y ->
     Forall (fun o => o = (true, N) \/ o = (false, 0))
            (Interleaving.observed y) /\
     ~ In (true, 0) (Interleaving.observed y) /\
     (Interleaving.stop_pc y = Interleaving.Released ->
        Interleaving.vars y = final (stopPress true s)) /\
     (Interleaving.stop_pc y = Interleaving.Dropped ->
        Interleaving.vars y = final (stopPress false s))) /\
  Interleaving.reaches (Interleaving.pressed s)
    (Interleaving.mkSys (final (stopPress true s)) None
       Interleaving.Released Interleaving.Idle []).
Proof.
  intros Pos Str Ring. split; [|split; [|split]].
  - destruct s; cbn. repeat split.
  - destruct s; cbn. split; reflexivity.
  - intros y R. destruct (invariant_reaches s y R) as (V & _ & _ & _ & O).
    unfold Interleaving.alarm_pair in O. rewrite Str, Ring in O.
    repeat split.
    + exact O.
    + intros I. rewrite Forall_forall in O.
      destruct (O _ I) as [E|E]; inversion E; lia.
    + intros E. rewrite V, E. reflexivity.
    + intros E. rewrite V, E. reflexivity.
  - apply stopPress_reaches.
Qed.

Lemma stop_clears_atomically_witness :
  let s := mkState 12 0 3 9 true 0 HIGH false in
  alarmRinging (final (stopPress true s)) = false /\
  strikeRemaining (final (stopPress true s)) = 0.
Proof.
  cbv zeta.
  destruct (stop_clears_atomically 9 (mkState 12 0 3 9 true 0 HIGH false))
    as ((A & B & _) & _); [lia | reflexivity | reflexivity |].
  split; [exact A | exact B].
Defined.

(** ** The range of the strike count *)

Lemma encoderISR_sound clk dt s : sound s -> sound (final (encoderISR clk dt s)).
Proof.
  destruct s as [h m sec sr ar lsm lc sem].
  unfold sound, valid_time, strikes_in_range, encoderISR; cbn.
  intros ((Hh & Hm & Hs) & Hr). prog_unfold; cbn.
  destruct (negb (eqb clk lc) && eqb clk HIGH); cbn; [|lia].
  destruct (eqb dt LOW); cbn; unwrap.
  - destruct (m + 1 >=? 60) eqn:E; cbn; bool_to_prop; unwrap;
      repeat split; zmod.
  - destruct (m - 1 <? 0) eqn:E; cbn; bool_to_prop; unwrap;
      repeat split; zmod.
Qed.

Lemma secondTick_sound s : sound s -> sound (secondTick s).
Proof.
  intros (V & R). split; [apply secondTick_step, V|].
  unfold strikes_in_range in *.
  destruct (secondTick_rest s) as (E & _). rewrite E. exact R.
Qed.

Lemma checkAlarm_sound cfg lock h m sec s :
  sound s -> sound (final (checkAlarm cfg lock h m sec s)).
Proof.
  destruct s as [hh mm ss sr ar lsm lc sem].
  unfold sound, valid_time, strikes_in_range, checkAlarm; cbn.
  prog_unfold; cbn.
  destruct ((h =? alarmHour cfg) && (m =? alarmMinute cfg) && (sec =? 0));
    cbn; [destruct lock; cbn|]; trivial.
Qed.

Lemma checkStrike_sound lock m sec s :
  sound s -> sound (final (checkStrike lock m sec s)).
Proof.
  destruct s as [hh mm ss sr ar lsm lc sem].
  unfold sound, valid_time, strikes_in_range, checkStrike; cbn.
  intros ((Hh & Hm & Hs) & Hr). prog_unfold; cbn.
  destruct ((m =? 0) && (sec =? 0)); cbn; [destruct lock; cbn|]; try lia.
  destruct ((sr =? 0) && negb ar); cbn; try lia.
  unfold CInt.rem. destruct (Z.rem hh 12 =? 0) eqn:E; bool_to_prop;
    repeat split; zmod.
Qed.

Lemma strikeDecrement_sound lock strikes s :
  sound s -> sound (final (strikeDecrement lock strikes s)).
Proof.
  destruct s as [hh mm ss sr ar lsm lc sem].
  unfold sound, valid_time, strikes_in_range, strikeDecrement; cbn.
  intros ((Hh & Hm & Hs) & Hr). prog_unfold; cbn.
  destruct lock; cbn; try lia.
  destruct (sr >? 0) eqn:E; cbn; bool_to_prop; unwrap; lia.
Qed.

Lemma stopPress_sound lock s : sound s -> sound (final (stopPress lock s)).
Proof.
  destruct s as [hh mm ss sr ar lsm lc sem].
  unfold sound, valid_time, strikes_in_range, stopPress; cbn.
  prog_unfold; cbn. destruct lock; cbn; lia.
Qed.

Lemma timeTask_tick_sound cfg la ls s :
  sound s -> sound (final (timeTask_tick cfg la ls s)).
Proof.
  intros S. rewrite timeTask_tick_eq. cbv zeta. unfold final at 1. cbn [fst snd].
  apply checkStrike_sound, checkAlarm_sound, secondTick_sound, S.
Qed.

Lemma perform_sound cfg op s : sound s -> sound (perform cfg op s).
Proof.
  intros S. destruct op; cbn [perform].
  - apply secondTick_sound, S.
  - apply checkAlarm_sound, S.
  - apply checkStrike_sound, S.
  - apply timeTask_tick_sound, S.
  - apply encoderISR_sound, S.
  - apply strikeDecrement_sound, S.
  - apply stopPress_sound, S.
Qed.

Lemma performAll_sound cfg ops : forall s,
  sound s -> sound (performAll cfg ops s).
Proof.
  induction ops as [|op ops IH]; intros s S; cbn.
  - exact S.
  - apply IH, perform_sound, S.
Qed.

(** C8: started at a valid time of day with [strikeRemaining] = 0, whatever
    blocks of the tasks run and in whatever order (the clock's increment and
    its strike arming, the encoder's handler, the buzzer's guarded decrement,
    the stop press, with any lock outcomes), [strikeRemaining] stays between
    0 and 12. *)
Theorem strikes_stay_in_range (cfg : AlarmConfig) (ops : list Op) (s : State) :
  valid_time s -> strikeRemaining s = 0 ->
  0 <= strikeRemaining (performAll cfg ops s) <= 12 /\
  valid_time (performAll cfg ops s).
Proof.
  intros V Z0.
  assert (S : sound s) by (split; [exact V | unfold strikes_in_range; lia]).
  destruct (performAll_sound cfg ops s S) as (V' & R). split; assumption.
Qed.

Lemma strikes_stay_in_range_witness :
  let s := performAll sketchAlarm
             [OpTick true true; OpEncoder HIGH LOW; OpStrikeDecrement true 3;
              OpStopPress true]
             (mkState 11 59 59 0 false 0 LOW false) in
  0 <= strikeRemaining s <= 12.
Proof.
  cbv zeta.
  apply (strikes_stay_in_range sketchAlarm
           [OpTick true true; OpEncoder HIGH LOW; OpStrikeDecrement true 3;
            OpStopPress true]
           (mkState 11 59 59 0 false 0 LOW false)).
  - unfold valid_time; cbn; lia.
  - reflexivity.
Defined.

(** * Further properties of the code *)

(** ** The encoder, click by click *)

Lemma encoderClick_step dt dt' s :
  valid_time s -> lastClk s = LOW ->
  let s' := encoderClick dt dt' s in
  valid_time s' /\ lastClk s' = LOW /\ secondNow s' = 0 /\
  same_alarm_state s s' /\ lastSecondMicros s' = lastSecondMicros s /\
  alarmSem s' = alarmSem s /\
  minuteOfDay s' =
    (minuteOfDay s + (if Bool.eqb dt LOW then 1 else -1)) mod 1440.
Proof.
  destruct s as [h m sec sr ar lsm lc sem].
  unfold valid_time, same_alarm_state, minuteOfDay, encoderClick, encoderISR,
    HIGH, LOW; cbn.
  intros (Hh & Hm & Hs) ->. prog_unfold; cbn.
  destruct dt; cbn; unwrap.
  - destruct (m - 1 <? 0) eqn:E; cbn; bool_to_prop; unwrap;
      repeat split; zmod.
  - destruct (m + 1 >=? 60) eqn:E; cbn; bool_to_prop; unwrap;
      repeat split; zmod.
Qed.

Lemma encoderClicks_step n dt dt' : forall s,
  valid_time s -> lastClk s = LOW ->
  let s' := encoderClicks n dt dt' s in
  valid_time s' /\ lastClk s' = LOW /\ same_alarm_state s s' /\
  minuteOfDay s' =
    (minuteOfDay s + Z.of_nat n * (if Bool.eqb dt LOW then 1 else -1)) mod 1440.
Proof.
  induction n as [|n IH]; intros s V L; cbv zeta.
  - cbn [encoderClicks]. repeat split; try apply V; trivial.
    unfold valid_time, minuteOfDay in *. cbn. rewrite Z.add_0_r, Z.mod_small; lia.
  - cbn [encoderClicks]. destruct (IH s V L) as (V1 & L1 & (A1 & B1) & M1).
    destruct (encoderClick_step dt dt' _ V1 L1)
      as (V2 & L2 & _ & (A2 & B2) & _ & _ & M2).
    repeat split; try apply V2; try congruence.
    rewrite M2, M1, Nat2Z.inj_succ, Zplus_mod_idemp_l. f_equal.
    destruct (Bool.eqb dt LOW); lia.
Qed.

Lemma hour_minute_determined s t :
  valid_time s -> valid_time t -> minuteOfDay s = minuteOfDay t ->
  hourNow s = hourNow t /\ minuteNow s = minuteNow t.
Proof. unfold valid_time, minuteOfDay. intros. lia. Qed.

(** X1: at a valid time, [n] forward clicks of the encoder add [n] minutes
    to the minute of the day modulo 1440, and [n] backward clicks subtract
    them; the alarm state is not touched. *)
Theorem encoder_clicks_add_minutes (n : nat) (dtFall : bool) (s : State) :
  valid_time s -> lastClk s = LOW ->
  minuteOfDay (encoderClicks n LOW dtFall s) =
    (minuteOfDay s + Z.of_nat n) mod 1440 /\
  minuteOfDay (encoderClicks n HIGH dtFall s) =
    (minuteOfDay s - Z.of_nat n) mod 1440 /\
  valid_time (encoderClicks n LOW dtFall s) /\
  valid_time (encoderClicks n HIGH dtFall s) /\
  same_alarm_state s (encoderClicks n LOW dtFall s) /\
  same_alarm_state s (encoderClicks n HIGH dtFall s).
Proof.
  intros V L.
  destruct (encoderClicks_step n LOW dtFall s V L) as (V1 & _ & A1 & M1).
  destruct (encoderClicks_step n HIGH dtFall s V L) as (V2 & _ & A2 & M2).
  cbn [Bool.eqb LOW HIGH] in M1, M2.
  repeat split; try apply V1; try apply V2; try apply A1; try apply A2.
  - rewrite M1. f_equal. lia.
  - rewrite M2. f_equal. lia.
Qed.

Lemma encoder_clicks_add_minutes_witness :
  minuteOfDay (encoderClicks 3 LOW HIGH (mkState 23 58 40 0 false 0 LOW false)) = 1.
Proof.
  destruct (encoder_clicks_add_minutes 3 HIGH
              (mkState 23 58 40 0 false 0 LOW false)) as (M & _);
    [unfold valid_time; cbn; lia | reflexivity |].
  rewrite M. reflexivity.
Defined.

(** X2: at a valid time, a forward click followed by a backward click (or
    the reverse) shows the hour and minute it started from, also across
    midnight, and so do 1440 clicks in one direction; the second is 0
    afterwards. *)
Theorem encoder_round_trips (a b c d : bool) (n : nat) (s : State) :
  valid_time s -> lastClk s = LOW -> Z.of_nat n = 1440 ->
  let there_and_back := encoderClick HIGH b (encoderClick LOW a s) in
  let back_and_there := encoderClick LOW d (encoderClick HIGH c s) in
  (hourNow there_and_back, minuteNow there_and_back, secondNow there_and_back)
    = (hourNow s, minuteNow s, 0) /\
  (hourNow back_and_there, minuteNow back_and_there, secondNow back_and_there)
    = (hourNow s, minuteNow s, 0) /\
  (hourNow (encoderClicks n LOW a s), minuteNow (encoderClicks n LOW a s))
    = (hourNow s, minuteNow s) /\
  (hourNow (encoderClicks n HIGH a s), minuteNow (encoderClicks n HIGH a s))
    = (hourNow s, minuteNow s).
Proof.
  intros V L N. cbv zeta.
  destruct (encoderClick_step LOW a s V L) as (V1 & L1 & _ & _ & _ & _ & M1).
  destruct (encoderClick_step HIGH b _ V1 L1) as (V2 & _ & S2 & _ & _ & _ & M2).
  destruct (encoderClick_step HIGH c s V L) as (V3 & L3 & _ & _ & _ & _ & M3).
  destruct (encoderClick_step LOW d _ V3 L3) as (V4 & _ & S4 & _ & _ & _ & M4).
  destruct (encoderClicks_step n LOW a s V L) as (V5 & _ & _ & M5).
  destruct (encoderClicks_step n HIGH a s V L) as (V6 & _ & _ & M6).
  cbn [Bool.eqb LOW HIGH] in *.
  assert (D : 0 <= minuteOfDay s < 1440)
    by (unfold valid_time, minuteOfDay in *; lia).
  repeat split.
  - rewrite S2. destruct (hour_minute_determined _ s V2 V) as (-> & ->); trivial.
    rewrite M2, M1. zmod.
  - rewrite S4. destruct (hour_minute_determined _ s V4 V) as (-> & ->); trivial.
    rewrite M4, M3. zmod.
  - destruct (hour_minute_determined _ s V5 V) as (-> & ->); trivial.
    rewrite M5, N. zmod.
  - destruct (hour_minute_determined _ s V6 V) as (-> & ->); trivial.
    rewrite M6, N. zmod.
Qed.

Lemma encoder_round_trips_witness :
  let s := mkState 0 0 31 4 false 0 LOW false in
  let t := encoderClick LOW HIGH (encoderClick HIGH LOW s) in
  (hourNow t, minuteNow t, secondNow t) = (0, 0, 0).
Proof.
  cbv zeta.
  destruct (encoder_round_trips LOW LOW LOW HIGH (Z.to_nat 1440)
              (mkState 0 0 31 4 false 0 LOW false)) as (_ & B & _);
    [unfold valid_time; cbn; lia | reflexivity | apply Z2Nat.id; lia |].
  exact B.
Defined.

(** ** When the clock triggers *)

Lemma checkAlarm_miss cfg lock h m sec s :
  (h =? alarmHour cfg) && (m =? alarmMinute cfg) && (sec =? 0) = false ->
  checkAlarm cfg lock h m sec s = (tt, s, []).
Proof. intros E. unfold checkAlarm. rewrite E. reflexivity. Qed.

Lemma checkStrike_miss lock m sec s :
  (m =? 0) && (sec =? 0) = false -> checkStrike lock m sec s = (tt, s, []).
Proof. intros E. unfold checkStrike. rewrite E. reflexivity. Qed.

Lemma secondTick_mid_minute s :
  valid_time s -> secondNow s < 59 ->
  clock (secondTick s) = (hourNow s, minuteNow s, secondNow s + 1).
Proof.
  destruct s as [h m sec sr ar lsm lc sem].
  unfold valid_time, secondTick, advanceTime, clock; cbn.
  intros (Hh & Hm & Hs) L. prog_unfold; cbn. unwrap.
  destruct (sec + 1 >=? 60) eqn:E; bool_to_prop; [lia|]. reflexivity.
Qed.

Lemma encoderISR_accepted dt s :
  valid_time s -> lastClk s = LOW ->
  let t := final (encoderISR HIGH dt s) in
  valid_time t /\ secondNow t = 0 /\ same_alarm_state s t /\
  alarmSem t = alarmSem s.
Proof.
  destruct s as [h m sec sr ar lsm lc sem].
  unfold valid_time, same_alarm_state, encoderISR, HIGH, LOW; cbn.
  intros (Hh & Hm & Hs) ->. prog_unfold; cbn.
  destruct dt; cbn; unwrap.
  - destruct (m - 1 <? 0) eqn:E; cbn; bool_to_prop; unwrap;
      repeat split; zmod.
  - destruct (m + 1 >=? 60) eqn:E; cbn; bool_to_prop; unwrap;
      repeat split; zmod.
Qed.

(** X3: a tick taken before second 59 of a minute only increments the second:
    it takes no lock, sends no signal and leaves the alarm state alone.  In
    particular the tick that follows an accepted step of the encoder (which
    resets the second to 0) triggers neither the alarm nor a strike, whatever
    time the step has set. *)
Theorem triggers_need_rollover (cfg : AlarmConfig) (la ls : bool) (s : State) :
  valid_time s ->
  (secondNow s < 59 ->
   let r := timeTask_tick cfg la ls s in
   calls r = [EnterCritical; ExitCritical] /\
   final r = secondTick s /\
   clock (final r) = (hourNow s, minuteNow s, secondNow s + 1)) /\
  (lastClk s = LOW ->
   forall dt,
   let r := timeTask_tick cfg la ls (final (encoderISR HIGH dt s)) in
   calls r = [EnterCritical; ExitCritical] /\
   same_alarm_state s (final r) /\ alarmSem (final r) = alarmSem s /\
   secondNow (final r) = 1).
Proof.
  intros V.
  assert (G : forall t, valid_time t -> secondNow t < 59 ->
            timeTask_tick cfg la ls t =
            (tt, secondTick t, [EnterCritical; ExitCritical]) /\
            clock (secondTick t) = (hourNow t, minuteNow t, secondNow t + 1)).
  { intros t Vt Lt. pose proof (secondTick_mid_minute t Vt Lt) as C.
    split; [|exact C].
    rewrite timeTask_tick_eq. cbv zeta.
    injection C as Ch Cm Cs. rewrite Cs.
    assert (Z0 : (secondNow t + 1 =? 0) = false)
      by (apply Z.eqb_neq; destruct Vt as (_ & _ & ?); lia).
    rewrite checkAlarm_miss by (rewrite Z0; apply andb_false_r).
    cbn [final fst snd calls].
    rewrite checkStrike_miss by (rewrite Z0; apply andb_false_r).
    reflexivity. }
  split.
  - intros L. cbv zeta. destruct (G s V L) as (-> & C). repeat split. exact C.
  - intros L dt. cbv zeta.
    pose proof (encoderISR_accepted dt s V L) as F.
    cbv zeta in F. destruct F as (Vt & St & (A & B) & Sem).
    destruct (G _ Vt) as (E & C); [lia|]. rewrite E. cbn [calls final fst snd].
    destruct (secondTick_rest (final (encoderISR HIGH dt s)))
      as (R1 & R2 & _ & _ & R5).
    injection C as _ _ Cs.
    repeat split; try congruence. rewrite Cs, St. reflexivity.
Qed.

Lemma triggers_need_rollover_witness :
  let s := mkState 5 29 12 0 false 0 LOW false in
  calls (timeTask_tick sketchAlarm true true (final (encoderISR HIGH LOW s)))
  = [EnterCritical; ExitCritical].
Proof.
  cbv zeta.
  destruct (triggers_need_rollover sketchAlarm true true
              (mkState 5 29 12 0 false 0 LOW false)) as (_ & T);
    [unfold valid_time; cbn; lia|].
  destruct (T eq_refl LOW) as (C & _). exact C.
Defined.

Lemma secondTick_clock_only s t :
  clock s = clock t -> clock (secondTick s) = clock (secondTick t).
Proof.
  destruct s as [h m sec sr ar lsm lc sem], t as [h' m' sec' sr' ar' lsm' lc' sem'].
  unfold clock; cbn. intros [= -> -> ->].
  unfold secondTick, advanceTime. prog_unfold; cbn.
  repeat split_if; reflexivity.
Qed.

Lemma runTicks_clock cfg locks : forall s,
  clock (runTicks cfg locks s) = clock (afterSeconds (length locks) s).
Proof.
  induction locks as [|l locks IH] using rev_ind; intros s.
  - reflexivity.
  - unfold runTicks in *. rewrite fold_left_app, length_app, Nat.add_comm.
    cbn [fold_left length Nat.add afterSeconds].
    rewrite tick_clock. apply secondTick_clock_only, IH.
Qed.

Lemma alarm_time_second cfg t :
  valid_alarm cfg -> valid_time t ->
  (clock t = (alarmHour cfg, alarmMinute cfg, 0) <->
   secondOfDay t = alarmHour cfg * 3600 + alarmMinute cfg * 60).
Proof.
  unfold valid_alarm, valid_time, clock, secondOfDay.
  intros (Ha & Hm) (Vh & Vm & Vs). split.
  - intros [= -> -> ->]. lia.
  - intros E.
    assert (hourNow t = alarmHour cfg) by lia.
    assert (minuteNow t = alarmMinute cfg) by lia.
    assert (secondNow t = 0) by lia. congruence.
Qed.

Lemma alarmDue_second cfg t :
  valid_alarm cfg -> valid_time t ->
  (alarmDue cfg t <->
   (secondOfDay t + 1) mod 86400 = alarmHour cfg * 3600 + alarmMinute cfg * 60).
Proof.
  intros Va Vt. unfold alarmDue.
  destruct (secondTick_step t Vt) as (V' & D).
  rewrite (alarm_time_second cfg _ Va V'), D. reflexivity.
Qed.

Lemma alarmDue_clock cfg s t : clock s = clock t -> alarmDue cfg s -> alarmDue cfg t.
Proof.
  unfold alarmDue. intros C D.
  rewrite <- (secondTick_clock_only s t C). exact D.
Qed.

(** X4: with a valid alarm time and a valid time of day, exactly one of the
    86,400 ticks of a day is the tick on which the alarm check matches,
    whatever the lock outcomes of the ticks before it. *)
Theorem alarm_due_once_a_day (cfg : AlarmConfig) (s : State) :
  valid_alarm cfg -> valid_time s ->
  exists k : nat,
    Z.of_nat k < 86400 /\
    forall locks,
      Z.of_nat (length locks) < 86400 ->
      (alarmDue cfg (runTicks cfg locks s) <-> length locks = k).
Proof.
  intros Va V.
  set (A := alarmHour cfg * 3600 + alarmMinute cfg * 60).
  set (c := secondOfDay s).
  assert (HA : 0 <= A < 86400) by (unfold A, valid_alarm in *; lia).
  assert (Hc : 0 <= c < 86400) by (unfold c, valid_time, secondOfDay in *; lia).
  exists (Z.to_nat ((A - c - 1) mod 86400)).
  assert (Hk : 0 <= (A - c - 1) mod 86400 < 86400)
    by (apply Z.mod_pos_bound; lia).
  split; [rewrite Z2Nat.id; lia|].
  intros locks L.
  destruct (afterSeconds_step (length locks) s V) as (V' & D).
  assert (E : alarmDue cfg (runTicks cfg locks s) <->
              alarmDue cfg (afterSeconds (length locks) s)).
  { split; apply alarmDue_clock;
      [apply runTicks_clock | symmetry; apply runTicks_clock]. }
  rewrite E, (alarmDue_second cfg _ Va V'), D. fold c A.
  split.
  - intros M. apply Nat2Z.inj. rewrite Z2Nat.id by lia.
    revert M. generalize (Z.of_nat (length locks)) L (Nat2Z.is_nonneg (length locks)).
    intros n Ln Pn M. zmod.
  - intros ->. rewrite Z2Nat.id by lia. zmod.
Qed.

Lemma alarm_due_once_a_day_witness :
  exists k : nat,
    Z.of_nat k < 86400 /\
    forall locks,
      Z.of_nat (length locks) < 86400 ->
      (alarmDue sketchAlarm (runTicks sketchAlarm locks (initialState 0 HIGH))
       <-> length locks = k).
Proof.
  apply (alarm_due_once_a_day sketchAlarm (initialState 0 HIGH)).
  - unfold valid_alarm; cbn; lia.
  - unfold valid_time; cbn; lia.
Defined.


(** X6: while a strike sequence or the alarm is active, no block of any task
    raises [strikeRemaining]: the clock does not re-arm, the encoder does not
    touch it, the buzzer and the stop button only lower it. *)
Theorem active_strikes_only_decrease (cfg : AlarmConfig) (op : Op) (s : State) :
  strikes_in_range s ->
  strikeRemaining s <> 0 \/ alarmRinging s = true ->
  0 <= strikeRemaining (perform cfg op s) <= strikeRemaining s.
Proof.
  unfold strikes_in_range. intros R Act.
  assert (G : forall lock m sec t,
            strikeRemaining t <> 0 \/ alarmRinging t = true ->
            strikeRemaining (final (checkStrike lock m sec t)) = strikeRemaining t).
  { intros lock m sec [h mm ss sr ar lsm lc sem] Act'. cbn in Act'.
    unfold checkStrike. prog_unfold; cbn.
    destruct ((m =? 0) && (sec =? 0)); cbn; [|reflexivity].
    destruct lock; cbn; [|reflexivity].
    destruct (sr =? 0) eqn:E; bool_to_prop; cbn; [|reflexivity].
    destruct Act' as [N | ->]; [contradiction|]. reflexivity. }
  assert (K : forall lock h m sec t,
            strikeRemaining (final (checkAlarm cfg lock h m sec t)) = strikeRemaining t /\
            (alarmRinging t = true ->
             alarmRinging (final (checkAlarm cfg lock h m sec t)) = true)).
  { intros lock h m sec [hh mm ss sr ar lsm lc sem].
    unfold checkAlarm. prog_unfold; cbn.
    destruct ((h =? alarmHour cfg) && (m =? alarmMinute cfg) && (sec =? 0));
      cbn; [destruct lock; cbn|]; auto. }
  destruct op; cbn [perform].
  - destruct (secondTick_rest s) as (E & _). cbv [secondTick] in E. lia.
  - destruct (K lock h m s0 s) as (E & _). lia.
  - rewrite (G lock m s0 s Act). lia.
  - rewrite timeTask_tick_eq. cbv zeta. cbn [final fst snd].
    destruct (secondTick_alarm_state s) as (A & B).
    set (t := secondTick s) in *.
    destruct (K lockAlarm (hourNow t) (minuteNow t) (secondNow t) t) as (E & F).
    rewrite G; [rewrite E, B; lia|].
    destruct Act as [N | Rg]; [left; rewrite E, B; exact N|].
    right. apply F. congruence.
  - destruct s as [h m sec sr ar lsm lc sem]. cbn in *.
    unfold encoderISR. prog_unfold; cbn.
    repeat split_if; cbn; lia.
  - destruct s as [h m sec sr ar lsm lc sem]. cbn in *.
    unfold strikeDecrement. prog_unfold; cbn.
    destruct lock; cbn; [|lia].
    destruct (sr >? 0) eqn:E; cbn; bool_to_prop; unwrap; lia.
  - destruct s as [h m sec sr ar lsm lc sem]. cbn in *.
    unfold stopPress. prog_unfold; cbn. destruct lock; cbn; lia.
Qed.

Lemma active_strikes_only_decrease_witness :
  let s := mkState 2 59 59 2 false 0 LOW false in
  0 <= strikeRemaining (perform sketchAlarm (OpTick true true) s) <= 2.
Proof.
  cbv zeta.
  apply (active_strikes_only_decrease sketchAlarm (OpTick true true)
           (mkState 2 59 59 2 false 0 LOW false)).
  - unfold strikes_in_range; cbn; lia.
  - left. cbn. lia.
Defined.

(** ** Playback, pass by pass *)

Lemma strikeTone_eq pot s : strikeTone pot s = (tt, s, [toneCall pot]).
Proof.
  unfold strikeTone, toneCall, buzzerFreq.
  destruct (pot <? POT_MIN_THRESHOLD); reflexivity.
Qed.

Lemma ringTone_eq pot s : ringTone pot s = (tt, s, [toneCall pot]).
Proof.
  unfold ringTone, toneCall, buzzerFreq.
  destruct (pot <? POT_MIN_THRESHOLD); reflexivity.
Qed.

Lemma strikeLoop_beat cfg b rest strikes s :
  0 < strikes ->
  strikeLoop cfg (b :: rest) strikes s =
  let s1 := performAll cfg (others b) s in
  let d := strikeDecrement (lockOk b) strikes s1 in
  let r := strikeLoop cfg rest (result d) (final d) in
  (result r, final r,
   [toneCall (potVal b); Delay 300; NoTone; Delay 700] ++ calls d ++ calls r).
Proof.
  intros P. cbn [strikeLoop].
  destruct (Z.gtb_spec strikes 0); [|lia].
  unfold bind. rewrite strikeTone_eq.
  unfold vTaskDelay, noTone, emit, meanwhile, modify. cbv zeta.
  unfold result, final, calls.
  destruct (strikeDecrement (lockOk b) strikes (performAll cfg (others b) s))
    as [[a s2] t2]. cbn [fst snd].
  destruct (strikeLoop cfg rest a s2) as [[r s3] t3]. reflexivity.
Qed.

Lemma ringLoop_beat cfg b rest s :
  ringLoop cfg (b :: rest) true s =
  let s1 := performAll cfg (others b) s in
  let d := rereadRinging (lockOk b) true s1 in
  let r := ringLoop cfg rest (result d) (final d) in
  (result r, final r,
   [toneCall (potVal b); Delay 250; NoTone; Delay 200] ++ calls d ++ calls r).
Proof.
  cbn [ringLoop].
  unfold bind. rewrite ringTone_eq.
  unfold vTaskDelay, noTone, emit, meanwhile, modify. cbv zeta.
  unfold result, final, calls.
  destruct (rereadRinging (lockOk b) true (performAll cfg (others b) s))
    as [[a s2] t2]. cbn [fst snd].
  destruct (ringLoop cfg rest a s2) as [[r s3] t3]. reflexivity.
Qed.

Lemma strikeDecrement_acquired strikes s :
  0 < strikeRemaining s <= CInt.INT_MAX ->
  strikeDecrement true strikes s =
  (strikeRemaining s - 1, set_strikeRemaining (strikeRemaining s - 1) s,
   [Take true; Give]).
Proof.
  destruct s as [h m sec sr ar lsm lc sem]; cbn. intros R.
  unfold strikeDecrement. prog_unfold; cbn.
  destruct (Z.gtb_spec sr 0); [|lia]. cbn.
  unfold CInt.INT_MAX in R. unwrap. reflexivity.
Qed.

Lemma set_strikeRemaining_twice a b s :
  set_strikeRemaining a (set_strikeRemaining b s) = set_strikeRemaining a s.
Proof. reflexivity. Qed.

Lemma set_strikeRemaining_same s :
  set_strikeRemaining (strikeRemaining s) s = s.
Proof. destruct s; reflexivity. Qed.

Lemma strikeLoop_drain cfg used rest : forall s,
  Forall (undisturbed true) used ->
  strikeRemaining s = Z.of_nat (length used) ->
  strikeRemaining s <= CInt.INT_MAX ->
  strikeLoop cfg (used ++ rest) (strikeRemaining s) s =
  (Some rest, set_strikeRemaining 0 s,
   flat_map (fun b => strikeCalls (toneCall (potVal b)) true) used).
Proof.
  induction used as [|b used IH]; intros s U L M.
  - cbn [app length flat_map] in *. rewrite strikeLoop_none by (cbn in L; lia).
    cbn in L. rewrite <- L, set_strikeRemaining_same. reflexivity.
  - inversion U as [|? ? (Lk & Ot) U']; subst.
    cbn [app length flat_map] in *. rewrite Nat2Z.inj_succ in L.
    rewrite strikeLoop_beat by lia. cbv zeta. rewrite Lk, Ot.
    cbn [performAll fold_left].
    rewrite strikeDecrement_acquired by lia.
    cbn [result final calls fst snd].
    set (s1 := set_strikeRemaining (strikeRemaining s - 1) s).
    change (strikeRemaining s - 1) with (strikeRemaining s1).
    rewrite (IH s1 U') by (subst s1; cbn [strikeRemaining set_strikeRemaining]; lia).
    subst s1. rewrite set_strikeRemaining_twice. reflexivity.
Qed.

(** X7: when the buzzer's local count equals the shared count [n], the next
    [n] passes acquire the lock and no other task runs, the strike loop plays
    exactly [n] strikes (a 300 ms tone or mute, 700 ms of silence, one
    decrement under the lock each), leaves [strikeRemaining] at 0 and touches
    nothing else. *)
Theorem strike_loop_drains (cfg : AlarmConfig) (used rest : list Beat)
  (s : State) :
  Forall (undisturbed true) used ->
  strikeRemaining s = Z.of_nat (length used) ->
  strikeRemaining s <= CInt.INT_MAX ->
  let r := strikeLoop cfg (used ++ rest) (strikeRemaining s) s in
  result r = Some rest /\
  final r = set_strikeRemaining 0 s /\
  calls r = flat_map (fun b => strikeCalls (toneCall (potVal b)) true) used.
Proof.
  intros U L M. cbv zeta. rewrite (strikeLoop_drain cfg used rest s U L M).
  repeat split.
Qed.

Lemma strike_loop_drains_witness :
  let s := mkState 2 0 0 2 false 0 LOW false in
  let r := strikeLoop sketchAlarm
             [mkBeat 4095 true []; mkBeat 10 true []; mkBeat 7 true []] 2 s in
  result r = Some [mkBeat 7 true []] /\ strikeRemaining (final r) = 0.
Proof.
  cbv zeta.
  destruct (strike_loop_drains sketchAlarm
              [mkBeat 4095 true []; mkBeat 10 true []] [mkBeat 7 true []]
              (mkState 2 0 0 2 false 0 LOW false)) as (A & B & _).
  - repeat constructor.
  - reflexivity.
  - cbn. unfold CInt.INT_MAX. lia.
  - split; [exact A|]. cbn [app strikeRemaining] in B. rewrite B. reflexivity.
Defined.




Lemma rereadRinging_eq lock s :
  rereadRinging lock true s =
  (if lock then alarmRinging s else true, s,
   Take lock :: (if lock then [Give] else [Delay 50])).
Proof. destruct lock; reflexivity. Qed.

Lemma ringLoop_unstopped cfg beats : forall s,
  alarmRinging s = true ->
  Forall (fun b => others b = []) beats ->
  ringLoop cfg beats true s =
  (None, s, flat_map (fun b => ringCalls (toneCall (potVal b)) (lockOk b)) beats).
Proof.
  induction beats as [|b beats IH]; intros s Rg Q.
  - reflexivity.
  - inversion Q as [|? ? Ot Q']; subst.
    rewrite ringLoop_beat. cbv zeta. rewrite Ot. cbn [performAll fold_left].
    rewrite rereadRinging_eq, Rg. cbn [result final calls fst snd].
    replace (if lockOk b then true else true) with true by (destruct (lockOk b); reflexivity).
    rewrite (IH s Rg Q'). reflexivity.
Qed.

Lemma ringLoop_unseen cfg beats : forall s,
  Forall (fun b => lockOk b = false) beats ->
  result (ringLoop cfg beats true s) = None.
Proof.
  induction beats as [|b beats IH]; intros s Q.
  - reflexivity.
  - inversion Q as [|? ? Lk Q']; subst.
    rewrite ringLoop_beat. cbv zeta. rewrite Lk, rereadRinging_eq.
    cbn [result final calls fst snd]. apply (IH _ Q').
Qed.

Lemma ringLoop_stopped cfg b rest s :
  lockOk b = true -> others b = [OpStopPress true] ->
  ringLoop cfg (b :: rest) true s =
  (Some rest, set_strikeRemaining 0 (set_alarmRinging false s),
   ringCalls (toneCall (potVal b)) true).
Proof.
  intros Lk Ot. rewrite ringLoop_beat. cbv zeta.
  rewrite Lk, Ot, rereadRinging_eq. cbn [performAll fold_left perform].
  change (final (stopPress true s))
    with (set_strikeRemaining 0 (set_alarmRinging false s)).
  cbn [result final calls fst snd alarmRinging set_strikeRemaining
       set_alarmRinging].
  rewrite ringLoop_none. reflexivity.
Qed.

(** X9: the ringing loop does not end by itself.  While [alarmRinging] stays
    true it goes on, cycle after cycle, whatever the lock outcomes; it also
    goes on, whatever the other tasks do, as long as its re-reads of the flag
    time out.  It ends after the first cycle during which the stop press has
    cleared the flag and whose re-read acquires the lock. *)
Theorem ringing_until_stopped (cfg : AlarmConfig) (beats : list Beat)
  (s : State) :
  (alarmRinging s = true ->
   Forall (fun b => others b = []) beats ->
   ringLoop cfg beats true s =
   (None, s,
    flat_map (fun b => ringCalls (toneCall (potVal b)) (lockOk b)) beats)) /\
  (Forall (fun b => lockOk b = false) beats ->
   result (ringLoop cfg beats true s) = None) /\
  (forall b rest,
   beats = b :: rest -> lockOk b = true -> others b = [OpStopPress true] ->
   ringLoop cfg beats true s =
   (Some rest, set_strikeRemaining 0 (set_alarmRinging false s),
    ringCalls (toneCall (potVal b)) true)).
Proof.
  split; [|split].
  - apply ringLoop_unstopped.
  - apply ringLoop_unseen.
  - intros b rest -> Lk Ot. apply ringLoop_stopped; assumption.
Qed.

(** ** The stop button's debounce *)

(** X10: with the tick counter in range, a poll of the stop button does
    nothing when the button is up or when at most [deb] ticks (counted modulo
    2^32, so also across a wrap of the counter) have passed since the last
    accepted press; otherwise it runs the stop press and restarts the
    debounce interval, also when the press was dropped because the lock
    timed out. *)
Theorem button_debounce (deb now lastPress : Z) (pin lock : bool) (s : State) :
  0 <= lastPress < 2 ^ 32 -> 0 <= now < 2 ^ 32 ->
  let r := buttonTask deb pin now lock lastPress s in
  let elapsed :=
    if lastPress <=? now then now - lastPress else now - lastPress + 2 ^ 32 in
  (pin = HIGH \/ elapsed <= deb ->
   r = (lastPress, s, [Delay 30])) /\
  (pin = LOW -> deb < elapsed ->
   r = (now, final (stopPress lock s), calls (stopPress lock s) ++ [Delay 30])).
Proof.
  intros Hl Hn. cbv zeta.
  assert (E : CInt.wrap_u32 (now - lastPress) =
              if lastPress <=? now then now - lastPress
              else now - lastPress + 2 ^ 32).
  { unfold CInt.wrap_u32. destruct (Z.leb_spec lastPress now).
    - apply Z.mod_small. lia.
    - symmetry. apply (Z.mod_unique _ _ (-1)); lia. }
  unfold buttonTask. rewrite E.
  set (elapsed := if lastPress <=? now then now - lastPress
                  else now - lastPress + 2 ^ 32).
  split.
  - intros [-> | Le].
    + reflexivity.
    + destruct pin; [reflexivity|]. cbn [Bool.eqb LOW].
      destruct (Z.gtb_spec elapsed deb); [lia|]. reflexivity.
  - intros -> Lt. cbn [Bool.eqb LOW].
    destruct (Z.gtb_spec elapsed deb); [|lia].
    destruct lock, s; reflexivity.
Qed.

Lemma button_debounce_witness :
  buttonTask 200 LOW 100 true (2 ^ 32 - 50) (mkState 6 0 3 6 false 0 LOW false)
  = (2 ^ 32 - 50, mkState 6 0 3 6 false 0 LOW false, [Delay 30]).
Proof.
  destruct (button_debounce 200 100 (2 ^ 32 - 50) LOW true
              (mkState 6 0 3 6 false 0 LOW false)) as (A & _); [lia | lia |].
  apply A. right. cbn. lia.
Defined.

(** ** The timer baseline *)

Lemma tick_baseline cfg la ls s :
  lastSecondMicros (final (timeTask_tick cfg la ls s)) = lastSecondMicros s.
Proof.
  destruct s as [h m sec sr ar lsm lc sem].
  unfold timeTask_tick, checkAlarm, checkStrike, advanceTime.
  prog_unfold; cbn.
  repeat split_if; reflexivity.
Qed.

Lemma timeTask_final cfg now la ls s :
  0 <= lastSecondMicros s <= now -> now < 2 ^ 64 ->
  final (timeTask cfg now la ls s) =
  if now - lastSecondMicros s >=? 1000000
  then final (timeTask_tick cfg la ls
                (set_lastSecondMicros (lastSecondMicros s + 1000000) s))
  else s.
Proof.
  intros B N. unfold timeTask, bind at 1, gets at 1. unfold CInt.wrap_u64.
  rewrite (Z.mod_small (now - lastSecondMicros s)) by lia.
  destruct (Z.geb_spec (now - lastSecondMicros s) 1000000) as [G|G].
  - rewrite Z.mod_small by lia.
    unfold when, bind, modify, vTaskDelay, emit, final.
    destruct (timeTask_tick cfg la ls _) as [[u t] tr]. reflexivity.
  - reflexivity.
Qed.

Lemma timeTask_iteration cfg now la ls s :
  valid_time s -> 0 <= lastSecondMicros s <= now -> now < 2 ^ 64 ->
  let s' := final (timeTask cfg now la ls s) in
  exists T,
    (T = 0 \/ T = 1) /\
    (T = 1 <-> 1000000 <= now - lastSecondMicros s) /\
    lastSecondMicros s' = lastSecondMicros s + T * 1000000 /\
    valid_time s' /\
    secondOfDay s' = (secondOfDay s + T) mod 86400.
Proof.
  intros V B N. cbv zeta. rewrite (timeTask_final cfg now la ls s B N).
  destruct (Z.geb_spec (now - lastSecondMicros s) 1000000) as [G|G].
  - set (s0 := set_lastSecondMicros (lastSecondMicros s + 1000000) s).
    set (s1 := final (timeTask_tick cfg la ls s0)).
    assert (V0 : valid_time s0) by (destruct s; exact V).
    destruct (secondTick_step s0 V0) as (V0' & D0).
    pose proof (tick_clock cfg la ls s0) as C. fold s1 in C.
    exists 1. split; [right; reflexivity|]. split; [split; intros; lia|].
    split; [subst s1; rewrite tick_baseline; destruct s; reflexivity|].
    split; [eapply valid_time_clock; [symmetry; exact C | exact V0']|].
    rewrite (secondOfDay_clock _ _ C), D0. destruct s; reflexivity.
  - exists 0. split; [left; reflexivity|]. split; [split; intros; lia|].
    split; [lia|]. split; [exact V|].
    unfold valid_time, secondOfDay in *. rewrite Z.add_0_r, Z.mod_small; lia.
Qed.

Lemma pollLoop_step cfg reads : forall lo s,
  valid_time s -> 0 <= lastSecondMicros s <= lo -> ascending lo reads ->
  let s' := pollLoop cfg reads s in
  let hi := lastReading lo reads in
  exists T,
    0 <= T <= Z.of_nat (length reads) /\
    lastSecondMicros s' = lastSecondMicros s + T * 1000000 /\
    lastSecondMicros s' <= hi /\
    valid_time s' /\
    secondOfDay s' = (secondOfDay s + T) mod 86400 /\
    (hi - lastSecondMicros s' < 1000000 ->
     T = (hi - lastSecondMicros s) / 1000000).
Proof.
  induction reads as [|r reads IH]; intros lo s V B A; cbv zeta.
  - cbn [pollLoop fold_left lastReading length Z.of_nat].
    exists 0. split; [lia|]. split; [lia|]. split; [lia|].
    split; [exact V|]. split.
    + unfold valid_time, secondOfDay in *.
      rewrite Z.add_0_r, Z.mod_small; lia.
    + intros L. zmod.
  - destruct A as (Hr & A'). unfold pollLoop in *.
    cbn [fold_left lastReading length]. rewrite Nat2Z.inj_succ.
    set (now := fst (fst r)) in *.
    destruct (timeTask_iteration cfg now (snd (fst r)) (snd r) s V)
      as (T1 & C1 & D1 & B1 & V1 & S1); [lia | lia |].
    set (s1 := final (timeTask cfg now (snd (fst r)) (snd r) s)) in *.
    assert (B1' : 0 <= lastSecondMicros s1 <= now).
    { rewrite B1. destruct C1 as [-> | ->]; [lia|].
      assert (1000000 <= now - lastSecondMicros s) by (apply D1; reflexivity).
      lia. }
    destruct (IH now s1 V1 B1' A') as (T & RT & BT & HT & VT & ST & ET).
    exists (T1 + T).
    split; [destruct C1; lia|].
    split; [rewrite BT, B1; lia|].
    split; [exact HT|].
    split; [exact VT|].
    split.
    + rewrite ST, S1, Zplus_mod_idemp_l. f_equal. lia.
    + intros L. rewrite (ET L), B1.
      destruct C1 as [-> | ->];
        [rewrite Z.mul_0_l, Z.add_0_r, Z.add_0_l; reflexivity|].
      replace (lastReading now reads - lastSecondMicros s)
        with (lastReading now reads - (lastSecondMicros s + 1 * 1000000)
              + 1 * 1000000) by lia.
      rewrite Z.div_add by lia. lia.
Qed.

(** X11: the clock does not drift with the jitter of the loop.  [timeTask]
    advances its baseline by exactly 1,000,000 us per tick, never to the
    timer's value, and never past it.  So over any run of its loop in which
    the timer does not run backwards, whenever the baseline is less than a
    second behind the last timer reading, the clock has advanced by exactly
    the number of whole seconds between the starting baseline and that
    reading, however late the individual iterations were. *)
Theorem clock_is_drift_free (cfg : AlarmConfig) (lo : Z)
  (reads : list (Z * bool * bool)) (s : State) :
  valid_time s -> 0 <= lastSecondMicros s <= lo -> ascending lo reads ->
  let s' := pollLoop cfg reads s in
  let hi := lastReading lo reads in
  valid_time s' /\
  lastSecondMicros s <= lastSecondMicros s' <= hi /\
  (lastSecondMicros s' - lastSecondMicros s) mod 1000000 = 0 /\
  secondOfDay s' =
    (secondOfDay s + (lastSecondMicros s' - lastSecondMicros s) / 1000000)
    mod 86400 /\
  (hi - lastSecondMicros s' < 1000000 ->
   secondOfDay s' =
     (secondOfDay s + (hi - lastSecondMicros s) / 1000000) mod 86400).
Proof.
  intros V B A. cbv zeta.
  destruct (pollLoop_step cfg reads lo s V B A)
    as (T & RT & BT & HT & VT & ST & ET).
  rewrite BT.
  replace (lastSecondMicros s + T * 1000000 - lastSecondMicros s)
    with (T * 1000000) by lia.
  rewrite Z.mod_mul, Z.div_mul by lia.
  split; [exact VT|].
  split; [split; [lia | rewrite <- BT; exact HT]|].
  split; [reflexivity|].
  split; [exact ST|].
  intros L. rewrite ST. rewrite <- ET by (rewrite BT; exact L). reflexivity.
Qed.

Lemma clock_is_drift_free_witness :
  let s := mkState 5 29 58 0 false 1000 LOW false in
  let reads := [(900000, true, true); (3500000, true, true);
                (3510000, true, true); (3520000, true, true)] in
  secondOfDay (pollLoop sketchAlarm reads s) =
  (secondOfDay s + (3520000 - 1000) / 1000000) mod 86400.
Proof.
  cbv zeta.
  destruct (clock_is_drift_free sketchAlarm 1000
              [(900000, true, true); (3500000, true, true);
               (3510000, true, true); (3520000, true, true)]
              (mkState 5 29 58 0 false 1000 LOW false)) as (_ & _ & _ & _ & D).
  - unfold valid_time; cbn; lia.
  - cbn; lia.
  - cbn. lia.
  - apply D. vm_compute. reflexivity.
Defined.

(** ** From the tick to the buzzer *)

Lemma checkStrike_arms s :
  strikeRemaining s = 0 -> alarmRinging s = false -> 0 <= hourNow s < 24 ->
  checkStrike true 0 0 s =
  (tt, set_alarmSem true (set_strikeRemaining (spec_strike_count (hourNow s)) s),
   [Take true; EnterCritical; ReadHour (hourNow s); ExitCritical; Signal; Give]).
Proof.
  destruct s as [h m sec sr ar lsm lc sem]; cbn. intros -> -> Hh.
  unfold checkStrike, spec_strike_count. prog_unfold; cbn.
  unfold CInt.rem. rewrite rem_12_mod by lia. reflexivity.
Qed.

Lemma alarm_miss cfg h m sec :
  (h, m, sec) <> (alarmHour cfg, alarmMinute cfg, 0) ->
  (h =? alarmHour cfg) && (m =? alarmMinute cfg) && (sec =? 0) = false.
Proof.
  intros N.
  destruct (Z.eqb_spec h (alarmHour cfg)), (Z.eqb_spec m (alarmMinute cfg)),
    (Z.eqb_spec sec 0); try reflexivity.
  subst. contradiction.
Qed.

Lemma secondTick_top_of_hour s :
  valid_time s -> minuteNow s = 59 -> secondNow s = 59 ->
  clock (secondTick s) = ((hourNow s + 1) mod 24, 0, 0).
Proof.
  destruct s as [h m sec sr ar lsm lc sem].
  unfold valid_time, secondTick, advanceTime, clock; cbn.
  intros (Hh & _) -> ->. prog_unfold; cbn. unwrap.
  rewrite Z.rem_mod_nonneg by lia. reflexivity.
Qed.

Lemma buzzerTask_wake cfg lockRing beats s :
  alarmSem s = true ->
  buzzerTask cfg true lockRing beats s =
  let s0 := set_alarmSem false s in
  let l := strikeLoop cfg beats (strikeRemaining s) s0 in
  match result l with
  | Some beats' =>
      let g := ringStage cfg lockRing beats' (final l) in
      (result g, final g, [Wake; Take true; Give] ++ calls l ++ calls g)
  | None => (false, final l, [Wake; Take true; Give] ++ calls l)
  end.
Proof.
  intros Sem. unfold buzzerTask, readAlarmState. prog_unfold.
  rewrite Sem. cbn.
  destruct (strikeLoop cfg beats (strikeRemaining s) (set_alarmSem false s))
    as [[[beats'|] s1] t1]; cbn; [|rewrite app_nil_r; reflexivity].
  destruct (ringStage cfg lockRing beats' s1) as [[a s2] t2]. reflexivity.
Qed.

Lemma ringStage_quiet cfg lock beats s :
  alarmRinging s = false ->
  ringStage cfg lock beats s =
  (true, s, Take lock :: (if lock then [Give] else []) ++ [NoTone]).
Proof.
  intros Rg. unfold ringStage, readRinging. prog_unfold.
  destruct lock; cbn; rewrite ?Rg, ringLoop_none; reflexivity.
Qed.

Lemma spec_strike_count_range h : 1 <= spec_strike_count h <= 12.
Proof.
  unfold spec_strike_count.
  destruct (Z.eqb_spec (h mod 12) 0); [lia | zmod].
Qed.

Lemma encoderISR_valid clk dt t :
  valid_time t -> valid_time (final (encoderISR clk dt t)).
Proof.
  destruct t as [h m sec sr ar lsm lc sem].
  unfold valid_time, encoderISR; cbn.
  intros (Hh & Hm & Hs). prog_unfold; cbn.
  destruct (negb (eqb clk lc) && eqb clk HIGH); cbn; [|lia].
  destruct (eqb dt LOW); cbn; unwrap.
  - destruct (m + 1 >=? 60) eqn:E; cbn; bool_to_prop; unwrap;
      repeat split; zmod.
  - destruct (m - 1 <? 0) eqn:E; cbn; bool_to_prop; unwrap;
      repeat split; zmod.
Qed.

(** Interrupts write only the time, and keep it valid. *)
Lemma interrupts_frame cfg ops : forall t,
  Forall interrupt ops ->
  same_alarm_state t (performAll cfg ops t) /\
  alarmSem (performAll cfg ops t) = alarmSem t /\
  (valid_time t -> valid_time (performAll cfg ops t)).
Proof.
  induction ops as [|op ops IH]; intros t F; cbn [performAll fold_left].
  - unfold same_alarm_state, performAll. cbn [fold_left].
    split; [split; reflexivity|]. split; [reflexivity | trivial].
  - inversion F as [|? ? I F']; subst.
    destruct op; try contradiction. cbn [perform].
    destruct (encoderISR_alarm_state clk dt t) as ((A1 & A2) & A3).
    destruct (IH (final (encoderISR clk dt t)) F') as ((B1 & B2) & B3 & B4).
    unfold same_alarm_state, performAll in *.
    split; [split; congruence|]. split; [congruence|].
    intros V. apply B4, encoderISR_valid, V.
Qed.

(** X12: the hourly chime, end to end.  At hh:59:59 with nothing ringing and
    nothing left to strike, on a tick that is not the alarm's and whose strike
    check acquires the lock, whatever encoder interrupts arrive during the
    tick, the clock stores the strike count of the hour that the strike check
    re-reads (line 191), which is the hour shown after those interrupts, and
    signals; without interrupts that hour is the new hour.  The buzzer task,
    woken by the signal, with its lock acquisitions succeeding and no other
    context running, plays exactly that many strikes, brings
    [strikeRemaining] back to 0, consumes the signal, ends with the buzzer
    off and waits again. *)
Theorem hourly_chime (cfg : AlarmConfig) (la lockRing : bool)
  (before gap : list Op) (beats : list Beat) (s : State) :
  valid_time s -> minuteNow s = 59 -> secondNow s = 59 ->
  strikeRemaining s = 0 -> alarmRinging s = false ->
  ~ alarmDue cfg s ->
  Forall interrupt before -> Forall interrupt gap ->
  Forall (undisturbed true) beats -> (12 <= length beats)%nat ->
  let s1 := final (timeTask_tick_among cfg la true before gap s) in
  let n := Z.to_nat (spec_strike_count (hourNow s1)) in
  let r := buzzerTask cfg true lockRing beats s1 in
  valid_time s1 /\
  hourNow s1 = hourNow (performAll cfg gap (performAll cfg before (secondTick s))) /\
  strikeRemaining s1 = spec_strike_count (hourNow s1) /\
  (before = [] -> gap = [] ->
   s1 = final (timeTask_tick cfg la true s) /\
   clock s1 = ((hourNow s + 1) mod 24, 0, 0)) /\
  result r = true /\
  final r = set_alarmSem false (set_strikeRemaining 0 s1) /\
  calls r =
    [Wake; Take true; Give] ++
    flat_map (fun b => strikeCalls (toneCall (potVal b)) true) (firstn n beats) ++
    Take lockRing :: (if lockRing then [Give] else []) ++ [NoTone].
Proof.
  intros V M59 S59 Sr Rg NotDue Ib Ig U Len. cbv zeta.
  pose proof (secondTick_top_of_hour s V M59 S59) as C.
  destruct (secondTick_rest s) as (R1 & R2 & _).
  destruct (secondTick_step s V) as (V1 & _).
  destruct (interrupts_frame cfg before (secondTick s) Ib)
    as ((F1 & F2) & _ & F4).
  set (s2 := performAll cfg before (secondTick s)) in *.
  destruct (interrupts_frame cfg gap s2 Ig) as ((G1 & G2) & _ & G4).
  set (s3 := performAll cfg gap s2) in *.
  assert (V3 : valid_time s3) by (apply G4, F4, V1).
  (* the tick *)
  assert (T : final (timeTask_tick_among cfg la true before gap s) =
              set_alarmSem true
                (set_strikeRemaining (spec_strike_count (hourNow s3)) s3)).
  { rewrite timeTask_tick_among_eq. cbv zeta.
    rewrite checkAlarm_miss by (apply alarm_miss; exact NotDue).
    cbn [final fst snd]. fold s2. fold s3.
    injection C as Ch Cm Cs. rewrite Cm, Cs.
    rewrite checkStrike_arms; [reflexivity | congruence | congruence |].
    apply V3. }
  rewrite T.
  set (cnt := spec_strike_count (hourNow s3)).
  pose proof (spec_strike_count_range (hourNow s3)) as Rc. fold cnt in Rc.
  set (s1 := set_alarmSem true (set_strikeRemaining cnt s3)).
  change (hourNow s1) with (hourNow s3). fold cnt.
  split; [exact V3|]. split; [reflexivity|]. split; [reflexivity|].
  split.
  { intros -> ->. split.
    - rewrite <- timeTask_tick_alone, T. reflexivity.
    - exact C. }
  (* the wake-up *)
  rewrite buzzerTask_wake by reflexivity. cbv zeta.
  set (s0 := set_alarmSem false s1).
  set (n := Z.to_nat cnt).
  assert (Ln : length (firstn n beats) = n)
    by (apply firstn_length_le; subst n; lia).
  assert (Un : Forall (undisturbed true) (firstn n beats)).
  { rewrite <- (firstn_skipn n beats) in U. apply Forall_app in U. apply U. }
  change (strikeRemaining s1) with (strikeRemaining s0).
  assert (L : strikeLoop cfg beats (strikeRemaining s0) s0 =
              (Some (skipn n beats), set_strikeRemaining 0 s0,
               flat_map (fun b => strikeCalls (toneCall (potVal b)) true)
                        (firstn n beats))).
  { rewrite <- (firstn_skipn n beats) at 1.
    apply strikeLoop_drain; [exact Un | |].
    - rewrite Ln. subst n s0 s1. cbn [strikeRemaining set_alarmSem
        set_strikeRemaining]. lia.
    - subst s0 s1. cbn [strikeRemaining set_alarmSem set_strikeRemaining].
      unfold CInt.INT_MAX. lia. }
  rewrite L. cbn [result final calls fst snd].
  assert (Q : alarmRinging (set_strikeRemaining 0 s0) = false).
  { subst s0 s1. cbn [alarmRinging set_strikeRemaining set_alarmSem].
    rewrite G1, F1, R2. exact Rg. }
  rewrite ringStage_quiet by exact Q.
  cbn [result final calls fst snd]. repeat split.
Qed.

Lemma hourly_chime_witness :
  let s := mkState 14 59 59 0 false 0 LOW false in
  let beats := repeat (mkBeat 2000 true []) 12 in
  let s1 := final (timeTask_tick_among sketchAlarm true true
                     [] [OpEncoder HIGH HIGH] s) in
  strikeRemaining s1 = spec_strike_count (hourNow s1) /\
  result (buzzerTask sketchAlarm true true beats s1) = true.
Proof.
  cbv zeta.
  destruct (hourly_chime sketchAlarm true true [] [OpEncoder HIGH HIGH]
              (repeat (mkBeat 2000 true []) 12)
              (mkState 14 59 59 0 false 0 LOW false))
    as (_ & _ & A & _ & B & _).
  - unfold valid_time; cbn; lia.
  - reflexivity.
  - reflexivity.
  - reflexivity.
  - reflexivity.
  - unfold alarmDue. cbn. discriminate.
  - constructor.
  - repeat constructor.
  - cbn. repeat constructor.
  - cbn. lia.
  - split; [exact A | exact B].
Defined.

Lemma buzzerTask_no_strikes cfg lockRead lockRing beats s :
  alarmSem s = true -> strikeRemaining s = 0 ->
  buzzerTask cfg lockRead lockRing beats s =
  let g := ringStage cfg lockRing beats (set_alarmSem false s) in
  (result g, final g,
   Wake :: Take lockRead :: (if lockRead then [Give] else []) ++ calls g).
Proof.
  intros Sem Sr. destruct lockRead.
  - rewrite buzzerTask_wake by exact Sem. cbv zeta.
    rewrite Sr, strikeLoop_none by lia. reflexivity.
  - rewrite buzzerTask_read_timeout by exact Sem. reflexivity.
Qed.

Lemma ringLoop_quiet_prefix cfg quiet more : forall s,
  alarmRinging s = true ->
  Forall (fun b => others b = []) quiet ->
  ringLoop cfg (quiet ++ more) true s =
  let r := ringLoop cfg more true s in
  (result r, final r,
   flat_map (fun b => ringCalls (toneCall (potVal b)) (lockOk b)) quiet ++
   calls r).
Proof.
  induction quiet as [|b quiet IH]; intros s Rg Q; cbv zeta.
  - cbn [app flat_map]. destruct (ringLoop cfg more true s) as [[a t] tr].
    reflexivity.
  - inversion Q as [|? ? Ot Q']; subst.
    cbn [app flat_map]. rewrite ringLoop_beat. cbv zeta.
    rewrite Ot. cbn [performAll fold_left].
    rewrite rereadRinging_eq, Rg. cbn [result final calls fst snd].
    replace (if lockOk b then true else true) with true
      by (destruct (lockOk b); reflexivity).
    rewrite (IH s Rg Q'). cbv zeta. cbn [result final calls fst snd].
    unfold ringCalls. rewrite <- !app_assoc. reflexivity.
Qed.

Lemma checkStrike_idle lock m sec t :
  alarmRinging t = true -> checkStrike lock m sec t =
  (tt, t,
   if (m =? 0) && (sec =? 0)
   then Take lock :: (if lock then [Give] else [])
   else []).
Proof.
  destruct t as [h mm ss sr ar lsm lc sem]; cbn. intros ->.
  unfold checkStrike. prog_unfold; cbn.
  destruct ((m =? 0) && (sec =? 0)); cbn; [|reflexivity].
  destruct lock; cbn; [|reflexivity].
  rewrite andb_false_r. reflexivity.
Qed.

Lemma tick_alarm_among cfg ls before gap s :
  alarmDue cfg s -> Forall interrupt gap ->
  final (timeTask_tick_among cfg true ls before gap s) =
  performAll cfg gap
    (set_alarmSem true
       (set_alarmRinging true (performAll cfg before (secondTick s)))).
Proof.
  unfold alarmDue, clock. intros D Ig.
  rewrite timeTask_tick_among_eq. cbv zeta.
  injection D as Dh Dm Ds. rewrite Ds.
  rewrite (checkAlarm_hit cfg _ _ _ Dh Dm). cbn [final fst snd].
  set (rung := set_alarmSem true
                 (set_alarmRinging true (performAll cfg before (secondTick s)))).
  destruct (interrupts_frame cfg gap rung Ig) as ((A & _) & _).
  rewrite checkStrike_idle by (rewrite A; reflexivity). reflexivity.
Qed.

Lemma readRinging_true t :
  alarmRinging t = true -> readRinging true t = (true, t, [Take true; Give]).
Proof.
  destruct t as [h mm ss sr ar lsm lc sem]; cbn. intros ->. reflexivity.
Qed.

Lemma ringStage_unread cfg beats s :
  ringStage cfg false beats s = (true, s, [Take false; NoTone]).
Proof.
  unfold ringStage, readRinging. prog_unfold. cbn.
  rewrite ringLoop_none. reflexivity.
Qed.

(** X13: the alarm, end to end.  On the alarm's tick, with the lock of the
    alarm check acquired and only encoder interrupts arriving during the
    tick, the clock sets [alarmRinging] and signals.  The buzzer task is
    woken with no strikes pending.  When its read of the flag (line 251)
    acquires the lock, it rings cycle after cycle while no other context
    runs, whatever the outcomes of its re-reads; the cycle during which the
    stop button is accepted, if its re-read acquires the lock, is the last
    one: the task turns the buzzer off and waits again, with [alarmRinging]
    false and [strikeRemaining] 0.  When the read of line 251 times out, the
    task skips the ringing loop: it makes no sound and waits again with
    [alarmRinging] still true. *)
Theorem alarm_rings_until_stop (cfg : AlarmConfig) (ls lockRead lockRing : bool)
  (before gap : list Op)
  (quiet : list Beat) (stop : Beat) (rest : list Beat) (s : State) :
  alarmDue cfg s -> strikeRemaining s = 0 ->
  Forall interrupt before -> Forall interrupt gap ->
  Forall (fun b => others b = []) quiet ->
  lockOk stop = true -> others stop = [OpStopPress true] ->
  let s1 := final (timeTask_tick_among cfg true ls before gap s) in
  let r := buzzerTask cfg lockRead lockRing (quiet ++ stop :: rest) s1 in
  alarmRinging s1 = true /\ alarmSem s1 = true /\ strikeRemaining s1 = 0 /\
  (before = [] -> gap = [] -> s1 = final (timeTask_tick cfg true ls s)) /\
  result r = true /\
  (lockRing = true ->
   final r =
     set_strikeRemaining 0 (set_alarmRinging false (set_alarmSem false s1)) /\
   calls r =
     Wake :: Take lockRead :: (if lockRead then [Give] else []) ++
     [Take true; Give] ++
     flat_map (fun b => ringCalls (toneCall (potVal b)) (lockOk b)) quiet ++
     ringCalls (toneCall (potVal stop)) true ++ [NoTone]) /\
  (lockRing = false ->
   final r = set_alarmSem false s1 /\
   alarmRinging (final r) = true /\
   calls r =
     Wake :: Take lockRead :: (if lockRead then [Give] else []) ++
     [Take false; NoTone]).
Proof.
  intros D Sr Ib Ig Q Lk Ot. cbv zeta.
  rewrite (tick_alarm_among cfg ls before gap s D Ig).
  destruct (secondTick_rest s) as (R1 & _).
  destruct (interrupts_frame cfg before (secondTick s) Ib) as ((_ & F2) & _).
  set (rung := set_alarmSem true
                 (set_alarmRinging true (performAll cfg before (secondTick s)))).
  destruct (interrupts_frame cfg gap rung Ig) as ((G1 & G2) & G3 & _).
  set (s1 := performAll cfg gap rung) in *.
  assert (A1 : alarmRinging s1 = true) by (rewrite G1; reflexivity).
  assert (A2 : alarmSem s1 = true) by (rewrite G3; reflexivity).
  assert (A3 : strikeRemaining s1 = 0).
  { rewrite G2. subst rung.
    cbn [strikeRemaining set_alarmSem set_alarmRinging]. congruence. }
  split; [exact A1|]. split; [exact A2|]. split; [exact A3|].
  split.
  { intros -> ->. rewrite <- timeTask_tick_alone.
    rewrite (tick_alarm_among cfg ls [] [] s D); [reflexivity | constructor]. }
  rewrite (buzzerTask_no_strikes cfg lockRead lockRing _ s1 A2 A3).
  cbv zeta. set (s0 := set_alarmSem false s1).
  assert (A0 : alarmRinging s0 = true) by (subst s0; destruct s1; exact A1).
  destruct lockRing.
  - assert (G : ringStage cfg true (quiet ++ stop :: rest) s0 =
                (true, set_strikeRemaining 0 (set_alarmRinging false s0),
                 [Take true; Give] ++
                 flat_map (fun b => ringCalls (toneCall (potVal b)) (lockOk b))
                          quiet ++
                 ringCalls (toneCall (potVal stop)) true ++ [NoTone])).
    { unfold ringStage. rewrite bind_eq.
      rewrite (readRinging_true s0 A0). cbn [result final calls fst snd].
      rewrite bind_eq, (ringLoop_quiet_prefix cfg quiet (stop :: rest) s0 A0 Q).
      cbv zeta.
      rewrite (ringLoop_stopped cfg stop rest s0 Lk Ot).
      cbn [result final calls fst snd]. unfold bind, noTone, emit, ret.
      cbn [result final calls fst snd]. rewrite <- !app_assoc. reflexivity. }
    rewrite G. cbn [result final calls fst snd].
    split; [reflexivity|]. split; [intros _; split; reflexivity|].
    discriminate.
  - rewrite ringStage_unread. cbn [result final calls fst snd].
    split; [reflexivity|]. split; [discriminate|].
    intros _. repeat split. exact A0.
Qed.

Lemma alarm_rings_until_stop_witness :
  let s := mkState 5 29 59 0 false 0 LOW false in
  let s1 := final (timeTask_tick_among sketchAlarm true true
                     [OpEncoder LOW LOW] [] s) in
  let r := buzzerTask sketchAlarm true true
             ([mkBeat 3000 false []] ++ mkBeat 3000 true [OpStopPress true] :: [])
             s1 in
  alarmRinging s1 = true /\ result r = true /\ alarmRinging (final r) = false.
Proof.
  cbv zeta.
  destruct (alarm_rings_until_stop sketchAlarm true true true
              [OpEncoder LOW LOW] []
              [mkBeat 3000 false []] (mkBeat 3000 true [OpStopPress true]) []
              (mkState 5 29 59 0 false 0 LOW false))
    as (A & _ & _ & _ & B & C & _).
  - reflexivity.
  - reflexivity.
  - repeat constructor.
  - constructor.
  - repeat constructor.
  - reflexivity.
  - reflexivity.
  - split; [exact A|]. split; [exact B|].
    destruct (C eq_refl) as (F & _). rewrite F. reflexivity.
Defined.

(** ** Playback under contention *)

Lemma strikeDecrement_cases lock strikes s :
  0 <= strikeRemaining s <= CInt.INT_MAX -> 0 < strikes <= CInt.INT_MAX ->
  exists sr',
    final (strikeDecrement lock strikes s) = set_strikeRemaining sr' s /\
    (lock = true /\ sr' = Z.max 0 (strikeRemaining s - 1) /\
       result (strikeDecrement lock strikes s) = sr' \/
     lock = false /\ sr' = strikeRemaining s /\
       result (strikeDecrement lock strikes s) = strikes - 1).
Proof.
  destruct s as [h m sec sr ar lsm lc sem]; cbn. unfold CInt.INT_MAX.
  intros R L. unfold strikeDecrement. prog_unfold. destruct lock; cbn.
  - destruct (Z.gtb_spec sr 0); cbn; unwrap.
    + exists (sr - 1). split; [reflexivity|]. left. repeat split; lia.
    + exists sr. split; [reflexivity|]. left. repeat split; lia.
  - exists sr. split; [reflexivity|]. right. unwrap. repeat split; lia.
Qed.

Lemma strikeLoop_contended cfg beats : forall strikes s,
  Forall alone beats ->
  0 <= strikes <= strikeRemaining s -> strikeRemaining s <= CInt.INT_MAX ->
  2 * strikes + strikeRemaining s * (strikeRemaining s + 1)
    <= 2 * Z.of_nat (length beats) ->
  exists used rest sr',
    beats = used ++ rest /\
    result (strikeLoop cfg beats strikes s) = Some rest /\
    final (strikeLoop cfg beats strikes s) = set_strikeRemaining sr' s /\
    0 <= sr' <= strikeRemaining s /\
    strikes <= Z.of_nat (length used) /\
    2 * Z.of_nat (length used)
      <= 2 * strikes + strikeRemaining s * (strikeRemaining s + 1).
Proof.
  induction beats as [|b beats IH]; intros strikes s Al R M P.
  - cbn [length Z.of_nat] in P. assert (strikes = 0) by nia. subst.
    exists [], [], (strikeRemaining s). rewrite strikeLoop_none by lia.
    cbn [result final calls fst snd app length Z.of_nat].
    rewrite set_strikeRemaining_same. repeat split; try lia; try nia.
  - destruct (Z.eq_dec strikes 0) as [->|Nz].
    + exists [], (b :: beats), (strikeRemaining s).
      rewrite strikeLoop_none by lia.
      cbn [result final calls fst snd app length Z.of_nat].
      rewrite set_strikeRemaining_same. repeat split; try lia; try nia.
    + inversion Al as [|? ? Ab Al']; subst. unfold alone in Ab.
      rewrite strikeLoop_beat by lia. cbv zeta. rewrite Ab.
      cbn [performAll fold_left length] in *. rewrite Nat2Z.inj_succ in P.
      destruct (strikeDecrement_cases (lockOk b) strikes s)
        as (sr1 & F & C); [lia | lia |].
      rewrite F. cbn [result final calls fst snd].
      destruct (IH (result (strikeDecrement (lockOk b) strikes s))
                   (set_strikeRemaining sr1 s) Al')
        as (used & rest & sr' & E1 & E2 & E3 & E4 & E5 & E6);
        cbn [strikeRemaining set_strikeRemaining].
      * destruct C as [(_ & C1 & C2) | (_ & C1 & C2)]; rewrite C2; lia.
      * destruct C as [(_ & C1 & C2) | (_ & C1 & C2)]; lia.
      * destruct C as [(_ & C1 & C2) | (_ & C1 & C2)]; rewrite C2; nia.
      * exists (b :: used), rest, sr'. rewrite E2, E3.
        cbn [strikeRemaining set_strikeRemaining] in E4, E6.
        cbn [app length]. rewrite Nat2Z.inj_succ, set_strikeRemaining_twice.
        repeat split; try (rewrite E1; reflexivity); try lia.
        all: destruct C as [(_ & C1 & C2) | (_ & C1 & C2)];
          rewrite C2 in *; nia.
Qed.

(** X14: a strike sequence under contention.  Started with the local count
    equal to the shared count [n] and left alone by the other tasks, the
    strike loop always ends, whatever the outcomes of its lock acquisitions:
    it plays at least [n] strikes and at most [n + n (n + 1) / 2] (a timed-out
    decrement lowers only the local count, the next successful one reloads it
    from the shared count), and it never raises [strikeRemaining]. *)
Theorem strike_loop_terminates (cfg : AlarmConfig) (beats : list Beat)
  (s : State) :
  Forall alone beats ->
  0 <= strikeRemaining s <= CInt.INT_MAX ->
  let n := strikeRemaining s in
  2 * n + n * (n + 1) <= 2 * Z.of_nat (length beats) ->
  exists used rest,
    beats = used ++ rest /\
    result (strikeLoop cfg beats n s) = Some rest /\
    n <= Z.of_nat (length used) /\
    2 * Z.of_nat (length used) <= 2 * n + n * (n + 1) /\
    0 <= strikeRemaining (final (strikeLoop cfg beats n s)) <= n /\
    clock (final (strikeLoop cfg beats n s)) = clock s /\
    alarmRinging (final (strikeLoop cfg beats n s)) = alarmRinging s.
Proof.
  intros Al R n P.
  destruct (strikeLoop_contended cfg beats n s Al)
    as (used & rest & sr' & E1 & E2 & E3 & E4 & E5 & E6); try (subst n; lia).
  exists used, rest. rewrite E3. repeat split; try assumption; cbn; lia.
Qed.

Lemma strike_loop_terminates_witness :
  let s := mkState 2 0 0 2 false 0 LOW false in
  exists used rest,
    [mkBeat 0 false []; mkBeat 0 true []; mkBeat 0 false []; mkBeat 0 true [];
     mkBeat 0 true []] = used ++ rest /\
    result (strikeLoop sketchAlarm (used ++ rest) 2 s) = Some rest.
Proof.
  cbv zeta.
  destruct (strike_loop_terminates sketchAlarm
              [mkBeat 0 false []; mkBeat 0 true []; mkBeat 0 false [];
               mkBeat 0 true []; mkBeat 0 true []]
              (mkState 2 0 0 2 false 0 LOW false))
    as (used & rest & E & R & _).
  - repeat constructor.
  - cbn. unfold CInt.INT_MAX. lia.
  - cbn. lia.
  - exists used, rest. split; [exact E|]. rewrite <- E. exact R.
Defined.

Lemma ringLoop_alone cfg beats : forall still s,
  Forall alone beats -> final (ringLoop cfg beats still s) = s.
Proof.
  induction beats as [|b beats IH]; intros still s Al.
  - reflexivity.
  - destruct still; [|reflexivity].
    inversion Al as [|? ? Ab Al']; subst. unfold alone in Ab.
    rewrite ringLoop_beat. cbv zeta. rewrite Ab, rereadRinging_eq.
    cbn [performAll fold_left result final calls fst snd].
    apply (IH _ s Al').
Qed.

Lemma strikeLoop_alone cfg beats : forall strikes s,
  Forall alone beats ->
  0 <= strikeRemaining s <= CInt.INT_MAX ->
  strikes <= CInt.INT_MAX ->
  exists sr',
    final (strikeLoop cfg beats strikes s) = set_strikeRemaining sr' s /\
    0 <= sr' <= strikeRemaining s /\
    match result (strikeLoop cfg beats strikes s) with
    | Some rest => Forall alone rest
    | None => True
    end.
Proof.
  induction beats as [|b beats IH]; intros strikes s Al R M.
  - exists (strikeRemaining s). rewrite set_strikeRemaining_same.
    cbn. destruct (strikes >? 0); cbn; repeat split; try lia; constructor.
  - destruct (Z_le_gt_dec strikes 0) as [Le|Gt].
    + exists (strikeRemaining s). rewrite strikeLoop_none by lia.
      rewrite set_strikeRemaining_same. cbn. repeat split; try lia. exact Al.
    + inversion Al as [|? ? Ab Al']; subst. unfold alone in Ab.
      rewrite strikeLoop_beat by lia. cbv zeta. rewrite Ab.
      cbn [performAll fold_left].
      destruct (strikeDecrement_cases (lockOk b) strikes s)
        as (sr1 & F & C); [lia | lia |].
      rewrite F. cbn [result final calls fst snd].
      destruct (IH (result (strikeDecrement (lockOk b) strikes s))
                   (set_strikeRemaining sr1 s) Al')
        as (sr' & E1 & E2 & E3); cbn [strikeRemaining set_strikeRemaining].
      * destruct C as [(_ & C1 & C2) | (_ & C1 & C2)]; lia.
      * destruct C as [(_ & C1 & C2) | (_ & C1 & C2)]; rewrite C2; lia.
      * exists sr'. rewrite E1, set_strikeRemaining_twice.
        cbn [strikeRemaining set_strikeRemaining] in E2.
        split; [reflexivity|]. split; [|exact E3].
        destruct C as [(_ & C1 & C2) | (_ & C1 & C2)]; lia.
Qed.

(** X15: what a wake-up of the buzzer task writes.  Left alone by the other
    tasks, whatever the lock outcomes and however the playback goes, the task
    consumes the pending signal and may lower [strikeRemaining]; it never
    raises it, never clears [alarmRinging] and never writes the time.  A
    second wake-up right after finds no signal and does nothing: signals
    given while one was pending are not counted. *)
Theorem buzzer_writes_only_the_count (cfg : AlarmConfig) (l1 l2 : bool)
  (beats : list Beat) (s : State) :
  Forall alone beats ->
  0 <= strikeRemaining s <= CInt.INT_MAX ->
  let s' := final (buzzerTask cfg l1 l2 beats s) in
  clock s' = clock s /\ alarmRinging s' = alarmRinging s /\
  lastClk s' = lastClk s /\ lastSecondMicros s' = lastSecondMicros s /\
  0 <= strikeRemaining s' <= strikeRemaining s /\
  alarmSem s' = false /\
  forall l1' l2' beats', buzzerTask cfg l1' l2' beats' s' = (false, s', []).
Proof.
  intros Al R. cbv zeta.
  assert (Idle : forall t, alarmSem t = false ->
            forall a b bs, buzzerTask cfg a b bs t = (false, t, [])).
  { intros t E a b bs. unfold buzzerTask. prog_unfold. rewrite E. reflexivity. }
  destruct (alarmSem s) eqn:Sem.
  - assert (F : exists sr',
               final (buzzerTask cfg l1 l2 beats s) =
               set_strikeRemaining sr' (set_alarmSem false s) /\
               0 <= sr' <= strikeRemaining s).
    { set (s0 := set_alarmSem false s).
      assert (G : forall strikes, strikes <= CInt.INT_MAX ->
                exists sr',
                  final (match result (strikeLoop cfg beats strikes s0) with
                         | Some beats' =>
                             let g := ringStage cfg l2 beats'
                                        (final (strikeLoop cfg beats strikes s0)) in
                             (result g, final g, calls g)
                         | None => (false, final (strikeLoop cfg beats strikes s0), [])
                         end) = set_strikeRemaining sr' s0 /\
                  0 <= sr' <= strikeRemaining s).
      { intros strikes Ms.
        destruct (strikeLoop_alone cfg beats strikes s0 Al)
          as (sr' & E1 & E2 & E3); [exact R | exact Ms |].
        exists sr'. split; [|exact E2].
        destruct (result (strikeLoop cfg beats strikes s0)) as [beats'|];
          [|exact E1].
        cbv zeta. cbn [final fst snd]. rewrite E1.
        unfold ringStage. rewrite bind_eq.
        assert (Rd : final (readRinging l2 (set_strikeRemaining sr' s0)) =
                     set_strikeRemaining sr' s0)
          by (destruct l2; reflexivity).
        cbn [final fst snd]. rewrite bind_eq. cbn [final fst snd].
        fold (final (readRinging l2 (set_strikeRemaining sr' s0))).
        rewrite Rd.
        pose proof (ringLoop_alone cfg beats'
                      (result (readRinging l2 (set_strikeRemaining sr' s0)))
                      (set_strikeRemaining sr' s0) E3) as Rl.
        unfold final in Rl |- *.
        destruct (ringLoop cfg beats' _ _) as [[[left|] t] tr];
          cbn [fst snd] in *; subst t; reflexivity. }
      destruct l1.
      - rewrite buzzerTask_wake by exact Sem. cbv zeta.
        destruct (G (strikeRemaining s)) as (sr' & E & Rg); [lia|].
        exists sr'. split; [|exact Rg]. revert E.
        change (strikeRemaining s) with (strikeRemaining s0) at 1 2 3 4.
        fold s0.
        destruct (result (strikeLoop cfg beats (strikeRemaining s0) s0));
          cbv zeta; cbn [final fst snd]; trivial.
      - rewrite buzzerTask_read_timeout by exact Sem. cbv zeta.
        destruct (G 0) as (sr' & E & Rg); [unfold CInt.INT_MAX; lia|].
        exists sr'. split; [|exact Rg]. revert E.
        rewrite strikeLoop_none by lia. cbv zeta. cbn [result final fst snd].
        trivial. }
    destruct F as (sr' & -> & Rg).
    repeat split; try (destruct s; reflexivity); try (cbn; lia).
  - rewrite (Idle s Sem). cbn [final fst snd].
    repeat split; try lia; trivial. intros. apply Idle, Sem.
Qed.

Lemma buzzer_writes_only_the_count_witness :
  let s := mkState 3 0 0 3 true 0 LOW true in
  alarmRinging
    (final (buzzerTask sketchAlarm true true
              [mkBeat 100 true []; mkBeat 100 false []] s)) = true.
Proof.
  cbv zeta.
  destruct (buzzer_writes_only_the_count sketchAlarm true true
              [mkBeat 100 true []; mkBeat 100 false []]
              (mkState 3 0 0 3 true 0 LOW true)) as (_ & A & _).
  - repeat constructor.
  - cbn. unfold CInt.INT_MAX. lia.
  - rewrite A. reflexivity.
Defined.

(** ** The encoder's edge filter *)

Lemma encoderISR_lastClk clk dt s : lastClk (final (encoderISR clk dt s)) = clk.
Proof.
  destruct s as [h m sec sr ar lsm lc sem].
  unfold encoderISR. prog_unfold; cbn.
  repeat split_if; reflexivity.
Qed.

Lemma set_lastClk_same s : set_lastClk (lastClk s) s = s.
Proof. destruct s; reflexivity. Qed.

(** X16: the interrupt handler filters on the level of the clock line, not on
    time: a second interrupt that reads the same level as the one before
    changes nothing, and an interrupt that reads the line low never changes
    the time. *)
Theorem encoder_edge_filter (clk dt dt' : bool) (s : State) :
  final (encoderISR clk dt' (final (encoderISR clk dt s))) =
  final (encoderISR clk dt s) /\
  final (encoderISR LOW dt s) = set_lastClk LOW s.
Proof.
  split.
  - rewrite encoderISR_ignored
      by (rewrite encoderISR_lastClk, Bool.eqb_reflx; reflexivity).
    rewrite <- (encoderISR_lastClk clk dt s) at 1.
    apply set_lastClk_same.
  - apply encoderISR_ignored. apply andb_false_r.
Qed.

(** ** The night light *)

Lemma ledTask_eq s :
  ledTask s =
  ((hourNow s >=? 17) || (hourNow s <? 6), s,
   [EnterCritical; ExitCritical; Delay 500]).
Proof.
  unfold ledTask, copyTime, HIGH, LOW. prog_unfold. cbn.
  destruct ((hourNow s >=? 17) || (hourNow s <? 6)); reflexivity.
Qed.

(** X17: a pass of [ledTask] writes nothing; at a valid time the LED is on
    from 17:00:00 to 05:59:59, and the level it shows changes from one second
    to the next exactly when the clock reaches 06:00:00 or 17:00:00. *)
Theorem led_switches_at_six_and_seventeen (s : State) :
  valid_time s ->
  final (ledTask s) = s /\
  (result (ledTask s) = HIGH <-> hourNow s < 6 \/ 17 <= hourNow s) /\
  (result (ledTask (secondTick s)) <> result (ledTask s) <->
   clock (secondTick s) = (6, 0, 0) \/ clock (secondTick s) = (17, 0, 0)).
Proof.
  intros V. rewrite !ledTask_eq. cbn [result final fst snd]. unfold HIGH.
  destruct (secondTick_step s V) as (V' & D).
  set (t := secondTick s) in *.
  unfold valid_time, secondOfDay, clock in *.
  split; [reflexivity|]. split.
  - destruct (Z.geb_spec (hourNow s) 17), (Z.ltb_spec (hourNow s) 6);
      cbn; intuition (try discriminate; try lia).
  - destruct (Z.geb_spec (hourNow s) 17), (Z.ltb_spec (hourNow s) 6),
      (Z.geb_spec (hourNow t) 17), (Z.ltb_spec (hourNow t) 6); cbn;
      (split;
       [ intros N; try (exfalso; apply N; reflexivity);
         try (assert (hourNow t = 6 /\ minuteNow t = 0 /\ secondNow t = 0)
                as (-> & -> & ->) by zmod; left; reflexivity);
         try (assert (hourNow t = 17 /\ minuteNow t = 0 /\ secondNow t = 0)
                as (-> & -> & ->) by zmod; right; reflexivity);
         exfalso; zmod
       | intros [E|E]; injection E as E1 E2 E3; try discriminate;
         exfalso; zmod ]).
Qed.

Lemma led_switches_at_six_and_seventeen_witness :
  result (ledTask (secondTick (mkState 16 59 59 0 false 0 LOW false))) <>
  result (ledTask (mkState 16 59 59 0 false 0 LOW false)).
Proof.
  destruct (led_switches_at_six_and_seventeen
              (mkState 16 59 59 0 false 0 LOW false)) as (_ & _ & A).
  - unfold valid_time; cbn; lia.
  - apply A. right. reflexivity.
Defined.

(** ** The display *)

Lemma string_length_append (a b : String.string) :
  String.length (String.append a b) = (String.length a + String.length b)%nat.
Proof. induction a as [|c a IH]; cbn; [reflexivity | now rewrite IH]. Qed.

Lemma substring_all (s : String.string) : forall n,
  (String.length s <= n)%nat -> String.substring 0 n s = s.
Proof.
  induction s as [|c s IH]; intros n L.
  - destruct n; reflexivity.
  - destruct n; cbn in L; [lia|]. cbn. rewrite IH by lia. reflexivity.
Qed.

Lemma snprintf_fits size full :
  (String.length full < size)%nat -> Display.snprintf size full = full.
Proof. intros L. unfold Display.snprintf. apply substring_all. lia. Qed.

Lemma range_check (P : Z -> bool) (hi : nat) :
  forallb P (map Z.of_nat (seq 0 hi)) = true ->
  forall n, 0 <= n < Z.of_nat hi -> P n = true.
Proof.
  intros H n Hn. rewrite forallb_forall in H. apply H.
  apply in_map_iff. exists (Z.to_nat n). split.
  - apply Z2Nat.id. lia.
  - apply in_seq. lia.
Qed.

Lemma fmt_02d_width n : 0 <= n < 100 -> String.length (Display.fmt_02d n) = 2%nat.
Proof.
  intros H. apply Nat.eqb_eq.
  apply (range_check (fun k => Nat.eqb (String.length (Display.fmt_02d k)) 2) 100);
    [vm_compute; reflexivity | lia].
Qed.

Lemma fmt_d_width n :
  0 <= n <= 100 -> (String.length (Display.fmt_d n) <= 3)%nat.
Proof.
  intros H. apply Nat.leb_le.
  apply (range_check (fun k => Nat.leb (String.length (Display.fmt_d k)) 3) 101);
    [vm_compute; reflexivity | lia].
Qed.

Lemma fmt_d_two n :
  0 <= n < 100 -> (String.length (Display.fmt_d n) <= 2)%nat.
Proof.
  intros H. apply Nat.leb_le.
  apply (range_check (fun k => Nat.leb (String.length (Display.fmt_d k)) 2) 100);
    [vm_compute; reflexivity | lia].
Qed.

Lemma potPct_eq p : 0 <= p <= 4095 -> Display.potPct p = p * 100 / 4095.
Proof.
  intros H. unfold Display.potPct, Arduino.map.
  change (CInt.sub 4095 0 =? 0) with false. cbv iota.
  change (CInt.sub 4095 0) with 4095. change (CInt.sub 100 0) with 100.
  unfold CInt.sub, CInt.mul, CInt.div, CInt.add.
  rewrite (wrap_int_small (p - 0))
    by (unfold CInt.in_int, CInt.INT_MIN, CInt.INT_MAX; lia).
  rewrite (wrap_int_small ((p - 0) * 100))
    by (unfold CInt.in_int, CInt.INT_MIN, CInt.INT_MAX; lia).
  replace (p - 0) with p by lia.
  rewrite Z.quot_div_nonneg by lia.
  assert (0 <= p * 100 / 4095 <= 100) by zmod.
  rewrite (wrap_int_small (p * 100 / 4095))
    by (unfold CInt.in_int, CInt.INT_MIN, CInt.INT_MAX; lia).
  rewrite wrap_int_small
    by (unfold CInt.in_int, CInt.INT_MIN, CInt.INT_MAX; lia).
  lia.
Qed.

Lemma potPct_range p : 0 <= p <= 4095 -> 0 <= Display.potPct p <= 100.
Proof. intros H. rewrite potPct_eq by lia. zmod. Qed.

(** X18: the percentage that the display shows for the potentiometer is
    between 0 and 100 for readings in 0..4095, non-decreasing in the reading,
    0 at reading 0, and 100 only at the full-scale reading 4095. *)
Theorem pot_percentage (p q : Z) :
  0 <= p <= q -> q <= 4095 ->
  0 <= Display.potPct p <= Display.potPct q /\
  Display.potPct q <= 100 /\
  (Display.potPct q = 100 <-> q = 4095) /\
  (Display.potPct p = 0 <-> p < 41).
Proof.
  intros Hp Hq. rewrite !potPct_eq by lia.
  assert (p * 100 / 4095 <= q * 100 / 4095) by (apply Z.div_le_mono; lia).
  repeat split; try zmod.
Qed.

Lemma pot_percentage_witness :
  Display.potPct 4094 <= 100 /\ Display.potPct 4094 <> 100.
Proof.
  destruct (pot_percentage 0 4094) as (_ & A & B & _); [lia | lia |].
  split; [exact A|]. intros E. apply B in E. discriminate.
Defined.

(** X19: a pass of [displayTask] writes nothing.  At a valid time, with the
    strike count in 0..12, a valid alarm time and a potentiometer reading in
    0..4095, none of its four texts is cut by the 48-byte buffer: the time is
    exactly five characters (HH:MM), the seconds three (:SS), the alarm line
    at most 20 and the status line at most 15.  When the lock acquisition of
    line 309 times out the pass shows the alarm as off and no strikes,
    whatever the alarm state is. *)
Theorem display_pass (cfg : AlarmConfig) (potVal : Z) (lock : bool) (s : State) :
  valid_time s -> strikes_in_range s -> valid_alarm cfg ->
  0 <= potVal <= 4095 ->
  let r := Display.displayTask cfg potVal lock s in
  let scr := result r in
  let shown_alarm := if lock then alarmRinging s else false in
  let shown_strikes := if lock then strikeRemaining s else 0 in
  final r = s /\
  Display.timeLine scr = Display.timeText (hourNow s) (minuteNow s) /\
  String.length (Display.timeLine scr) = 5%nat /\
  Display.secondsLine scr = Display.secondsText (secondNow s) /\
  String.length (Display.secondsLine scr) = 3%nat /\
  Display.alarmLine scr = Display.alarmText cfg shown_strikes /\
  (String.length (Display.alarmLine scr) <= 20)%nat /\
  Display.statusLine scr =
    Display.statusText shown_alarm (Display.potPct potVal) /\
  (String.length (Display.statusLine scr) <= 15)%nat.
Proof.
  intros (Vh & Vm & Vs) Rs (Ah & Am) Hp. cbv zeta.
  unfold strikes_in_range in Rs.
  destruct (potPct_range potVal Hp) as (P1 & P2).
  assert (E : Display.displayTask cfg potVal lock s =
    (Display.mkScreen
       (Display.snprintf 48 (Display.timeText (hourNow s) (minuteNow s)))
       (Display.snprintf 48 (Display.secondsText (secondNow s)))
       (Display.snprintf 48
          (Display.alarmText cfg (if lock then strikeRemaining s else 0)))
       (Display.snprintf 48
          (Display.statusText (if lock then alarmRinging s else false)
             (Display.potPct potVal))),
     s,
     EnterCritical :: ExitCritical :: Take lock ::
     (if lock then [Give] else []) ++ [Delay 180])).
  { unfold Display.displayTask, copyTime, Display.potPct. prog_unfold.
    destruct lock; reflexivity. }
  rewrite E. cbn [result final fst snd Display.timeLine Display.secondsLine
                  Display.alarmLine Display.statusLine].
  pose proof (fmt_02d_width (hourNow s)) as W1.
  pose proof (fmt_02d_width (minuteNow s)) as W2.
  pose proof (fmt_02d_width (secondNow s)) as W3.
  pose proof (fmt_02d_width (alarmHour cfg)) as W4.
  pose proof (fmt_02d_width (alarmMinute cfg)) as W5.
  pose proof (fmt_d_two (if lock then strikeRemaining s else 0)) as W6.
  pose proof (fmt_d_width (Display.potPct potVal)) as W7.
  assert (W8 : String.length
                 (Display.onOff (if lock then alarmRinging s else false)) = 3%nat)
    by (destruct (if lock then alarmRinging s else false); reflexivity).
  assert (W6' : 0 <= (if lock then strikeRemaining s else 0) <= 12)
    by (destruct lock; lia).
  assert (L1 : String.length (Display.timeText (hourNow s) (minuteNow s))
               = 5%nat).
  { unfold Display.timeText. rewrite !string_length_append.
    cbn [String.length]. lia. }
  assert (L2 : String.length (Display.secondsText (secondNow s)) = 3%nat).
  { unfold Display.secondsText. rewrite !string_length_append.
    cbn [String.length]. lia. }
  assert (L3 : (String.length
                  (Display.alarmText cfg (if lock then strikeRemaining s else 0))
                <= 20)%nat).
  { unfold Display.alarmText. rewrite !string_length_append.
    cbn [String.length]. lia. }
  assert (L4 : (String.length
                  (Display.statusText (if lock then alarmRinging s else false)
                     (Display.potPct potVal)) <= 15)%nat).
  { unfold Display.statusText. rewrite !string_length_append.
    cbn [String.length]. lia. }
  rewrite !snprintf_fits by lia.
  repeat split; assumption || lia.
Qed.

Lemma display_pass_witness :
  let r := Display.displayTask sketchAlarm 4095 false
             (mkState 5 30 7 0 true 0 LOW false) in
  final r = mkState 5 30 7 0 true 0 LOW false /\
  String.length (Display.timeLine (result r)) = 5%nat.
Proof.
  cbv zeta.
  destruct (display_pass sketchAlarm 4095 false
              (mkState 5 30 7 0 true 0 LOW false)) as (A & _ & B & _).
  - unfold valid_time; cbn; lia.
  - unfold strikes_in_range; cbn; lia.
  - unfold valid_alarm; cbn; lia.
  - lia.
  - split; [exact A | exact B].
Defined.
